(** * MEAnalyzer (MEA.py): a shallow embedding of the $CPD decoding,
    checksum and signature validation, extension parsing, uncharted
    partition walk and module hash verdicts, with their properties. *)

From Stdlib Require Import ZArith List String Ascii Bool Lia.
Import ListNotations.
Open Scope Z_scope.

(** ** Bytes and Python slices *)

(** A byte buffer ([bytes] in Python) is a list of integers in [0, 256). *)
Definition bytes := list Z.

(** [s[a:b]] on a Python [bytes] value for non-negative [a], [b]:
    indices are clamped to the length. *)
Definition slice (s : bytes) (a b : Z) : bytes :=
  firstn (Z.to_nat b - Z.to_nat a) (skipn (Z.to_nat a) s).

(** [int.from_bytes(b, 'little')] *)
Fixpoint from_bytes_le (b : bytes) : Z :=
  match b with
  | [] => 0
  | x :: r => x + 256 * from_bytes_le r
  end.

(** [int.from_bytes(b, 'big')] *)
Definition from_bytes_be (b : bytes) : Z :=
  fold_left (fun acc x => acc * 256 + x) b 0.

(** Python's [sum] over a [bytes] value. *)
Definition sum_bytes (b : bytes) : Z := fold_right Z.add 0 b.

(** Little-endian encoding of a [w]-byte unsigned field (used to build
    concrete images). *)
Fixpoint le_bytes (w : nat) (x : Z) : bytes :=
  match w with
  | O => []
  | S w' => (x mod 256) :: le_bytes w' (x / 256)
  end.

(** An ASCII tag such as [b'$CPD'] as bytes. *)
Fixpoint tag_bytes (s : string) : bytes :=
  match s with
  | EmptyString => []
  | String c r => Z.of_nat (nat_of_ascii c) :: tag_bytes r
  end.

(** A ctypes [char*n] field reads back as the bytes before the first NUL. *)
Fixpoint c_chars (b : bytes) : bytes :=
  match b with
  | [] => []
  | x :: r => if x =? 0 then [] else x :: c_chars r
  end.

(** Python's [needle in haystack] on [bytes]. *)
Fixpoint prefix_of (p s : bytes) : bool :=
  match p, s with
  | [], _ => true
  | x :: p', y :: s' => (x =? y) && prefix_of p' s'
  | _ :: _, [] => false
  end.

Fixpoint bytes_in (p s : bytes) : bool :=
  match s with
  | [] => prefix_of p s
  | _ :: s' => prefix_of p s || bytes_in p s'
  end.

(** [s.endswith(suf)] on bytes. *)
Definition ends_with (suf s : bytes) : bool := prefix_of (rev suf) (rev s).

(** [bytes.decode('utf-8')] succeeds: the strict UTF-8 decoder of Python
    (no overlong forms, no surrogates, nothing above U+10FFFF, no
    truncated sequence), following the well-formed byte sequences of the
    Unicode standard (its Table 3-7). *)
Definition in_range (lo hi x : Z) : bool := (lo <=? x) && (x <=? hi).

(** The range of the second byte after a 3- or 4-byte lead byte. *)
Definition second_range (x : Z) : Z * Z :=
  if x =? 0xE0 then (0xA0, 0xBF)
  else if x =? 0xED then (0x80, 0x9F)
  else if x =? 0xF0 then (0x90, 0xBF)
  else if x =? 0xF4 then (0x80, 0x8F)
  else (0x80, 0xBF).

Fixpoint utf8_valid (b : bytes) : bool :=
  match b with
  | [] => true
  | x :: r =>
      if in_range 0 0x7F x then utf8_valid r
      else if in_range 0xC2 0xDF x then
        match r with
        | y :: r' => in_range 0x80 0xBF y && utf8_valid r'
        | [] => false
        end
      else if in_range 0xE0 0xEF x then
        match r with
        | y :: z :: r' =>
            in_range (fst (second_range x)) (snd (second_range x)) y &&
            in_range 0x80 0xBF z && utf8_valid r'
        | _ => false
        end
      else if in_range 0xF0 0xF4 x then
        match r with
        | y :: z :: u :: r' =>
            in_range (fst (second_range x)) (snd (second_range x)) y &&
            in_range 0x80 0xBF z && in_range 0x80 0xBF u && utf8_valid r'
        | _ => false
        end
      else false
  end.

(** ** Hashes ([hashlib.sha1], [hashlib.sha256]) and hex strings *)

Module Hash.

(** 32-bit words: wrap-around and rotations. *)
Definition mask32 (x : Z) : Z := Z.land x (2 ^ 32 - 1).

Definition rotr (n x : Z) : Z := Z.lor (Z.shiftr x n) (mask32 (Z.shiftl x (32 - n))).

Definition rotl (n x : Z) : Z := rotr (32 - n) x.

Definition add32 (l : list Z) : Z := mask32 (fold_right Z.add 0 l).

(** Big-endian [w]-byte encoding. *)
Definition be_bytes (w : nat) (x : Z) : bytes := rev (le_bytes w x).

(** The message padding shared by SHA-1 and SHA-256: [0x80], zeros up to
    56 mod 64, then the bit length as a 64-bit big-endian integer. *)
Definition md_pad (m : bytes) : bytes :=
  let L := Z.of_nat (List.length m) in
  m ++ [0x80] ++ repeat 0 (Z.to_nat ((55 - L) mod 64)) ++ be_bytes 8 (8 * L).

(** 64-byte blocks. *)
Fixpoint blocks (fuel : nat) (l : bytes) : list bytes :=
  match fuel, l with
  | O, _ | _, [] => []
  | S f, _ => firstn 64 l :: blocks f (skipn 64 l)
  end.

(** The sixteen big-endian words of a block. *)
Definition block_words (blk : bytes) : list Z :=
  map (fun i => from_bytes_be (slice blk (4 * Z.of_nat i) (4 * Z.of_nat i + 4))) (seq 0 16).

(** Extends a message schedule kept most recent first. *)
Fixpoint schedule (n : nat) (next : list Z -> Z) (r : list Z) : list Z :=
  match n with
  | O => r
  | S n' => schedule n' next (next r :: r)
  end.

(** The words of a digest, big-endian, as one integer. *)
Definition join_words (hs : list Z) : Z := fold_left (fun acc h => acc * 2 ^ 32 + h) hs 0.

(** SHA-256 (FIPS 180-4). *)
Definition sha256_k : list Z := [
  0x428A2F98; 0x71374491; 0xB5C0FBCF; 0xE9B5DBA5; 0x3956C25B; 0x59F111F1;
  0x923F82A4; 0xAB1C5ED5; 0xD807AA98; 0x12835B01; 0x243185BE; 0x550C7DC3;
  0x72BE5D74; 0x80DEB1FE; 0x9BDC06A7; 0xC19BF174; 0xE49B69C1; 0xEFBE4786;
  0x0FC19DC6; 0x240CA1CC; 0x2DE92C6F; 0x4A7484AA; 0x5CB0A9DC; 0x76F988DA;
  0x983E5152; 0xA831C66D; 0xB00327C8; 0xBF597FC7; 0xC6E00BF3; 0xD5A79147;
  0x06CA6351; 0x14292967; 0x27B70A85; 0x2E1B2138; 0x4D2C6DFC; 0x53380D13;
  0x650A7354; 0x766A0ABB; 0x81C2C92E; 0x92722C85; 0xA2BFE8A1; 0xA81A664B;
  0xC24B8B70; 0xC76C51A3; 0xD192E819; 0xD6990624; 0xF40E3585; 0x106AA070;
  0x19A4C116; 0x1E376C08; 0x2748774C; 0x34B0BCB5; 0x391C0CB3; 0x4ED8AA4A;
  0x5B9CCA4F; 0x682E6FF3; 0x748F82EE; 0x78A5636F; 0x84C87814; 0x8CC70208;
  0x90BEFFFA; 0xA4506CEB; 0xBEF9A3F7; 0xC67178F2].

Definition sha256_h0 : list Z := [
  0x6A09E667; 0xBB67AE85; 0x3C6EF372; 0xA54FF53A; 0x510E527F; 0x9B05688C;
  0x1F83D9AB; 0x5BE0CD19].

Definition sha256_next (r : list Z) : Z :=
  let w2 := nth 1 r 0 in let w7 := nth 6 r 0 in
  let w15 := nth 14 r 0 in let w16 := nth 15 r 0 in
  let s0 := Z.lxor (Z.lxor (rotr 7 w15) (rotr 18 w15)) (Z.shiftr w15 3) in
  let s1 := Z.lxor (Z.lxor (rotr 17 w2) (rotr 19 w2)) (Z.shiftr w2 10) in
  add32 [s1; w7; s0; w16].

Definition sha256_round (st : list Z) (kw : Z * Z) : list Z :=
  match st with
  | [a; b; c; d; e; f; g; h] =>
      let '(k, w) := kw in
      let s1 := Z.lxor (Z.lxor (rotr 6 e) (rotr 11 e)) (rotr 25 e) in
      let ch := Z.lxor (Z.land e f) (Z.land (Z.lxor e (2 ^ 32 - 1)) g) in
      let t1 := add32 [h; s1; ch; k; w] in
      let s0 := Z.lxor (Z.lxor (rotr 2 a) (rotr 13 a)) (rotr 22 a) in
      let maj := Z.lxor (Z.lxor (Z.land a b) (Z.land a c)) (Z.land b c) in
      let t2 := add32 [s0; maj] in
      [add32 [t1; t2]; a; b; c; add32 [d; t1]; e; f; g]
  | _ => st
  end.

Definition sha256_block (st : list Z) (blk : bytes) : list Z :=
  let ws := rev (schedule 48 sha256_next (rev (block_words blk))) in
  let st' := fold_left sha256_round (combine sha256_k ws) st in
  map (fun '(x, y) => add32 [x; y]) (combine st st').

Definition sha256 (m : bytes) : Z :=
  let p := md_pad m in
  join_words (map mask32 (fold_left sha256_block (blocks (List.length p) p) sha256_h0)).

(** SHA-1 (FIPS 180-4). *)
Definition sha1_h0 : list Z := [0x67452301; 0xEFCDAB89; 0x98BADCFE; 0x10325476; 0xC3D2E1F0].

Definition sha1_next (r : list Z) : Z :=
  rotl 1 (Z.lxor (Z.lxor (nth 2 r 0) (nth 7 r 0)) (Z.lxor (nth 13 r 0) (nth 15 r 0))).

Definition sha1_round (st : list Z) (tw : nat * Z) : list Z :=
  match st with
  | [a; b; c; d; e] =>
      let '(t, w) := tw in
      let '(f, k) :=
        if (t <? 20)%nat then (Z.lor (Z.land b c) (Z.land (Z.lxor b (2 ^ 32 - 1)) d), 0x5A827999)
        else if (t <? 40)%nat then (Z.lxor (Z.lxor b c) d, 0x6ED9EBA1)
        else if (t <? 60)%nat then (Z.lor (Z.lor (Z.land b c) (Z.land b d)) (Z.land c d), 0x8F1BBCDC)
        else (Z.lxor (Z.lxor b c) d, 0xCA62C1D6) in
      [add32 [rotl 5 a; f; e; k; w]; a; rotl 30 b; c; d]
  | _ => st
  end.

Definition sha1_block (st : list Z) (blk : bytes) : list Z :=
  let ws := rev (schedule 64 sha1_next (rev (block_words blk))) in
  let st' := fold_left sha1_round (combine (seq 0 80) ws) st in
  map (fun '(x, y) => add32 [x; y]) (combine st st').

Definition sha1 (m : bytes) : Z :=
  let p := md_pad m in
  join_words (map mask32 (fold_left sha1_block (blocks (List.length p) p) sha1_h0)).

(** Hex strings, as their lists of digit values (most significant
    first): both sides of every comparison below are upper-case hex,
    so comparing digit lists is comparing the strings. *)
Fixpoint hex_pad (w : nat) (x : Z) : list Z :=
  match w with
  | O => []
  | S w' => hex_pad w' (x / 16) ++ [x mod 16]
  end.

(** [hashlib.<h>(data).hexdigest().upper()] for a digest of [w] hex
    digits. *)
Definition hexdigest (w : nat) (d : Z) : list Z := hex_pad w d.

(** ['%X' % x] for [x >= 0]: no leading zeros ([x = 0] gives ['0']). *)
Definition hex_len (x : Z) : nat := Z.to_nat (Z.log2 x / 4 + 1).

Definition hex_upper (x : Z) : list Z := hex_pad (hex_len x) x.

(** [==] on two hex strings. *)
Definition hex_eqb (a b : list Z) : bool := if list_eq_dec Z.eq_dec a b then true else false.

(** [int(s, 16)] *)
Definition int_base16 (s : list Z) : Z := fold_left (fun acc d => acc * 16 + d) s 0.

End Hash.

(** ** $CPD entry attribute word ([ext_anl], uncharted walk) *)

Module OffsetAttrib.

(** [w] binary digits of [x], most significant first, zero padded: the
    string [format(x, '0wb')] for [0 <= x < 2^w]. *)
Fixpoint bin_digits (w : nat) (x : Z) : list ascii :=
  match w with
  | O => []
  | S w' => bin_digits w' (x / 2) ++ [if Z.odd x then "1"%char else "0"%char]
  end.

(** [format(OffsetAttrib, '032b')]; [OffsetAttrib] is a ctypes [uint32]
    field, so it is always in [0, 2^32) and the string has 32 digits. *)
Definition format_032b (x : Z) : list ascii := bin_digits 32 x.

(** [int(s, 2)] on a string of binary digits. *)
Definition int_base2 (s : list ascii) : Z :=
  fold_left (fun acc c => acc * 2 + (if Ascii.eqb c "1"%char then 1 else 0)) s 0.

(** [cpd_off_attr[7:]], [cpd_off_attr[6]], [cpd_off_attr[:6]] *)
Record decoded := mk_decoded {
  cpd_mod_off : Z;
  cpd_mod_huff : Z;
  cpd_mod_res : Z
}.

Definition decode (offset_attrib : Z) : decoded :=
  let cpd_off_attr := format_032b offset_attrib in
  mk_decoded
    (int_base2 (skipn 7 cpd_off_attr))
    (int_base2 [nth 6 cpd_off_attr "0"%char])
    (int_base2 (firstn 6 cpd_off_attr)).

End OffsetAttrib.

(** ** $CPD checksum ([cpd_chk]) *)

(** [cpd_chk(cpd_data)]; [cpd_data[0xB]] raises [IndexError] on a
    buffer of 11 bytes or fewer, modelled by [None]. Python's [-] binds
    tighter than [&], so [0x100 - cpd_sum & 0xFF] is
    [(0x100 - cpd_sum) & 0xFF]. *)
Definition cpd_chk (cpd_data : bytes) : option bool :=
  match nth_error cpd_data 11 with
  | None => None
  | Some cpd_chk_byte =>
      let cpd_sum := sum_bytes cpd_data - cpd_chk_byte in
      let cpd_chk_calc := Z.land (Z.land (256 - cpd_sum) 255) 255 in
      Some (cpd_chk_byte =? cpd_chk_calc)
  end.

(** ** Module attribute rows of an IBBP partition ([ext_anl], pass 2) *)

Module Ibbp.

(** Python's [sub in s] on [str]. *)
Definition str_in (sub s : string) : bool :=
  match String.index 0 sub s with Some _ => true | None => false end.

(** The fields of a [cpd_mod_attr] row that pass 2 reads or writes:
    [[0]] name, [[3]] start offset, [[4]]/[[5]] compressed/uncompressed
    size, [[7]] hash. *)
Record mod_attr := mk_attr {
  attr_name : string;
  attr_start : Z;
  attr_size_comp : Z;
  attr_size_uncomp : Z;
  attr_hash : string
}.

(** A non-metadata $CPD entry: name, absolute offset, declared size. *)
Record cpd_entry := mk_entry {
  entry_name : string;
  entry_offset : Z;
  entry_size : Z
}.

(** [for mod in range(len(l)): if l[mod][0] == name: l[mod] = f(l[mod]); break] *)
Fixpoint update_first (name : string) (f : mod_attr -> mod_attr) (l : list mod_attr) : list mod_attr :=
  match l with
  | [] => []
  | a :: r => if String.eqb (attr_name a) name then f a :: r else a :: update_first name f r
  end.

Definition has_name (name : string) (l : list mod_attr) : bool :=
  existsb (fun a => String.eqb (attr_name a) name) l.

(** The state pass 2 threads through the entries of an IBBP partition. *)
Record pass2 := mk_pass2 {
  cpd_mod_attr : list mod_attr;
  cpd_ext_names : list string;
  ibbp_all : list string
}.

Definition str_mem (x : string) (l : list string) : bool :=
  existsb (String.eqb x) l.

(** One iteration of the pass-2 loop over the entries of a partition
    named [IBBP]; keys, microcodes and data all append a fresh row
    carrying the entry's name, offset and size. *)
Definition pass2_entry (st : pass2) (e : cpd_entry) : pass2 :=
  let name := entry_name e in
  if str_in ".man" name || str_in ".met" name then st else
  let ibbp_all' := ibbp_all st ++ [name] in
  let '(attrs, ext_names) :=
    if has_name name (cpd_mod_attr st)
    then (update_first name (fun a => mk_attr (attr_name a) (attr_start a)
                                  (entry_size e) (entry_size e) (attr_hash a))
                       (cpd_mod_attr st),
          cpd_ext_names st ++ [name])
    else (cpd_mod_attr st, cpd_ext_names st) in
  if str_mem name ext_names
  then mk_pass2 (update_first name (fun a => mk_attr (attr_name a) (entry_offset e)
                                   (attr_size_comp a) (attr_size_uncomp a) (attr_hash a)) attrs)
                ext_names ibbp_all'
  else mk_pass2 (attrs ++ [mk_attr name (entry_offset e) (entry_size e) (entry_size e) ""])
                ext_names ibbp_all'.

Definition ibbp_bpm : list string := ["IBBL"; "IBB"; "OBB"]%string.

(** Indices [mod_index] in [range(len(l))] with [l[mod_index][0] == name]. *)
Fixpoint indices_named (name : string) (i : nat) (l : list mod_attr) : list nat :=
  match l with
  | [] => []
  | a :: r => (if String.eqb (attr_name a) name then [i] else []) ++ indices_named name (S i) r
  end.

(** Python's [del l[i]] for [0 <= i]; [None] is the [IndexError] raised
    when [i >= len(l)]. *)
Fixpoint del_at {A} (i : nat) (l : list A) : option (list A) :=
  match l, i with
  | [], _ => None
  | _ :: r, O => Some r
  | a :: r, S i' => option_map (cons a) (del_at i' r)
  end.

(** "Remove missing APL IBBP Module Attributes": the indices are collected
    first, then deleted one after the other from the same list. *)
Definition remove_missing (ibbp_all : list string) (attrs : list mod_attr) : option (list mod_attr) :=
  match ibbp_all with
  | [] => Some attrs
  | _ :: _ =>
      let ibbp_del := flat_map (fun ibbp => if str_mem ibbp ibbp_all then []
                                            else indices_named ibbp 0 attrs) ibbp_bpm in
      fold_left (fun acc i => match acc with Some l => del_at i l | None => None end)
                ibbp_del (Some attrs)
  end.

(** Pass 2 over the entries of an IBBP partition followed by the removal,
    starting from the rows [attrs] collected in pass 1. *)
Definition ibbp_resolve (attrs : list mod_attr) (ext_names : list string)
    (entries : list cpd_entry) : option (list mod_attr) :=
  let st := fold_left pass2_entry entries (mk_pass2 attrs ext_names []) in
  remove_missing (ibbp_all st) (cpd_mod_attr st).

End Ibbp.

(** Concrete pass-1 rows used below. *)
Definition ibbp_row (n : string) : Ibbp.mod_attr := Ibbp.mk_attr n 0 0 0 "00".

(** Rows of pass 1 for a partition whose [BPM.met] carries Extension 0x0A
    (row [BPM]) and Extension 0x13 with non-zero IBBL, IBB and OBB hashes. *)
Definition ibbp_pass1_rows : list Ibbp.mod_attr :=
  [ibbp_row "BPM"; ibbp_row "IBBL"; ibbp_row "IBB"; ibbp_row "OBB"]%string.


(** ** Program state, [get_struct] and [mea_exit] *)

Module Exec.

(** Messages stored in [err_stor]. *)
Inductive msg :=
| ErrOffsetOutOfBounds (off : Z)
| ErrForcedExtBreak
| ErrUnimplementedExt (tag : Z).

(** The global lists the analysis appends to: [err_stor], [cpd_ext_hash]
    (partition name is implicit: (metadata name, hash words)) and, for the
    batch driver, the indices of the input files whose analysis finished. *)
Record world := mk_world {
  err_stor : list msg;
  cpd_ext_hash : list (bytes * list Z);
  files_done : list nat
}.

Definition push_err (m : msg) (w : world) : world :=
  mk_world (err_stor w ++ [m]) (cpd_ext_hash w) (files_done w).

(** A computation either returns, or ends the whole process through
    [mea_exit(code)] ([sys.exit]). *)
Inductive outcome (A : Type) :=
| Ret (a : A) (w : world)
| Exit (code : Z) (w : world).
Arguments Ret {A} a w.
Arguments Exit {A} code w.

Definition M (A : Type) := world -> outcome A.

Definition ret {A} (a : A) : M A := fun w => Ret a w.

Definition bind {A B} (m : M A) (k : A -> M B) : M B :=
  fun w => match m w with
           | Ret a w' => k a w'
           | Exit c w' => Exit c w'
           end.

Notation "'let*' x := m 'in' k" := (bind m (fun x => k))
  (at level 200, x name, m at level 100, right associativity).
Notation "m ;; k" := (bind m (fun _ => k)) (at level 100, right associativity).

Definition modify (f : world -> world) : M unit := fun w => Ret tt (f w).

Definition mea_exit {A} (code : Z) : M A := fun w => Exit code w.

(** An uncaught exception (such as [UnicodeDecodeError]) reaches
    [sys.excepthook = show_exception_and_exit], which prints the traceback
    and ends the process with [sys.exit(-1)]. *)
Definition crash {A} : M A := fun w => Exit (-1) w.

(** [get_struct(str_, off, struct)] for a structure of [struct_len]
    bytes; [file_end] is the global length of the input file. Reading
    past the end stores the error and calls [mea_exit(1)] (after
    [multi_drop()] or [f.close()], which only touch files). *)
Definition get_struct (str_ : bytes) (file_end off struct_len : Z) : M bytes :=
  let str_data := slice str_ off (off + struct_len) in
  let fit_len := Z.min (Z.of_nat (List.length str_data)) struct_len in
  if (off >? file_end) || (fit_len <? struct_len)
  then modify (push_err (ErrOffsetOutOfBounds off)) ;; mea_exit 1
  else ret str_data.

(** A little-endian [uint32_t] field at [k] inside structure bytes [s]. *)
Definition u32 (s : bytes) (k : Z) : Z := from_bytes_le (slice s k (k + 4)).

End Exec.

(** ** The per-file driver loop ([for file_in in source]) *)

Module Batch.
Import Exec.

Section Driver.

(** The analysis of one opened input file (everything between
    [reading = f.read()] and the end of the loop body). *)
Variable analyse : bytes -> M unit.

(** [source] lists the inputs: [None] for a path that is not a file,
    [Some reading] for a file's contents. A missing file ends the run
    unless [-mass] is given; a finished analysis records the file. *)
Fixpoint file_loop (mass_scan : bool) (source : list (option bytes)) (cur_count : nat) : M unit :=
  match source with
  | [] => ret tt
  | None :: rest =>
      if mass_scan then file_loop mass_scan rest (S cur_count) else mea_exit 0
  | Some reading :: rest =>
      modify (fun w => mk_world [] (cpd_ext_hash w) (files_done w)) ;;
      analyse reading ;;
      modify (fun w => mk_world (err_stor w) (cpd_ext_hash w) (files_done w ++ [cur_count])) ;;
      file_loop mass_scan rest (S cur_count)
  end.

(** The main program: the loop, then [mea_exit(0)]. *)
Definition mea_main (mass_scan : bool) (source : list (option bytes)) : M unit :=
  file_loop mass_scan source 0 ;; mea_exit 0.

End Driver.


End Batch.

(** ** Extension stream of a .man/.met entry ([ext_anl]) *)

Module ExtLoop.
Import Exec.

(** [ext_tag_all = list(range(17)) + list(range(18,22)) + [50]] *)
Definition ext_tag_all : list Z :=
  map Z.of_nat (seq 0 17) ++ map Z.of_nat (seq 18 4) ++ [50].

(** How a pass of the loop ended. *)
Inductive ext_end :=
| EndOfEntry (passes : Z)     (* [cpd_ext_offset + 1 > entry end]: row stored *)
| ForcedBreak (passes : Z).   (* [loop_break > 100] *)

Section Loop.

(** The buffer, the entry's absolute offset and its declared size. *)
Variables (reading : bytes) (cpd_entry_offset cpd_entry_size : Z).

(** What one pass does with an extension of tag [ext_tag] at
    [cpd_ext_offset] and declared length [cpd_ext_size]. *)
Variable handle : Z -> Z -> Z -> M unit.

(** The [while True] loop; [fuel] bounds the number of passes modelled
    ([None]: the fuel ran out before the loop stopped). The
    [input('Press enter to continue...')] pauses taken with [-unp86] or
    [-bug] leave the state unchanged. *)
Fixpoint ext_loop (fuel : nat) (cpd_ext_offset ext_tag loop_break : Z) : M (option ext_end) :=
  match fuel with
  | O => ret None
  | S fuel' =>
      let loop_break := loop_break + 1 in
      if loop_break >? 100 then
        modify (push_err ErrForcedExtBreak) ;; ret (Some (ForcedBreak (loop_break - 1)))
      else
        let* ext_tag :=
          if existsb (Z.eqb ext_tag) ext_tag_all then ret ext_tag
          else modify (push_err (ErrUnimplementedExt ext_tag)) ;;
               ret (from_bytes_le (slice reading cpd_ext_offset (cpd_ext_offset + 4))) in
        let cpd_ext_size := from_bytes_le (slice reading (cpd_ext_offset + 4) (cpd_ext_offset + 8)) in
        handle ext_tag cpd_ext_offset cpd_ext_size ;;
        let cpd_ext_offset := cpd_ext_offset + cpd_ext_size in
        if cpd_ext_offset + 1 >? cpd_entry_offset + cpd_entry_size then
          ret (Some (EndOfEntry loop_break))
        else
          ext_loop fuel' cpd_ext_offset
            (from_bytes_le (slice reading cpd_ext_offset (cpd_ext_offset + 4))) loop_break
  end.

End Loop.

(** [ctypes.sizeof] of the header class [ext_dict['CPD_Ext_%0.2X' % ext_tag]],
    when that key exists (exactly the tags of [ext_tag_all]). *)
Definition ext_struct_len (ext_tag : Z) : option Z :=
  match ext_tag with
  | 0 => Some 0x40 | 1 => Some 0x10 | 2 => Some 0x0C | 3 => Some 0x58
  | 4 => Some 0x1C | 5 => Some 0x46 | 6 => Some 0x08 | 7 => Some 0x08
  | 8 => Some 0x08 | 9 => Some 0x0C | 10 => Some 0x38 | 11 => Some 0x08
  | 12 => Some 0x30 | 13 => Some 0x08 | 14 => Some 0x24 | 15 => Some 0x34
  | 16 => Some 0x60 | 18 => Some 0x1C | 19 => Some 0xB4 | 20 => Some 0x148
  | 21 => Some 0x34 | 50 => Some 0x10
  | _ => None
  end.

(** [ctypes.sizeof] of [ext_dict['CPD_Ext_%0.2X_Mod' % ext_tag]], when
    that key exists. *)
Definition mod_struct_len (ext_tag : Z) : option Z :=
  match ext_tag with
  | 0 => Some 0x0C | 1 => Some 0x18 | 2 => Some 0x04 | 3 => Some 0x34
  | 6 => Some 0x10 | 7 => Some 0x08 | 8 => Some 0x0C | 9 => Some 0x18
  | 11 => Some 0x08 | 13 => Some 0x34 | 14 => Some 0x44 | 15 => Some 0x34
  | 18 => Some 0x38
  | _ => None
  end.

(** The [char] fields (offset, length) that the [ext_print] method of the
    header class decodes with [.decode('utf-8')]: [PartitionName] of
    [CPD_Ext_03] and [CPD_Ext_0F], [Type] of [CPD_Ext_32]. The other
    rows only format integers. *)
Definition ext_print_names (ext_tag : Z) : list (Z * Z) :=
  match ext_tag with
  | 3 | 15 | 50 => [(0x8, 4)]
  | _ => []
  end.

(** The same for the module classes: [Name] of [CPD_Ext_00_Mod],
    [PartitionName] and [ModuleName] of [CPD_Ext_01_Mod], [Name] of
    [CPD_Ext_03_Mod], [CPD_Ext_09_Mod] and [CPD_Ext_0F_Mod]. *)
Definition mod_print_names (ext_tag : Z) : list (Z * Z) :=
  match ext_tag with
  | 0 => [(0x0, 4)]
  | 1 => [(0x0, 4); (0x4, 12)]
  | 3 | 9 | 15 => [(0x0, 12)]
  | _ => []
  end.

(** The [.decode('utf-8')] calls on the listed [char] fields of structure
    bytes [s]; the first invalid one raises [UnicodeDecodeError]. *)
Definition decode_fields (s : bytes) (fields : list (Z * Z)) : M unit :=
  if forallb (fun '(k, l) => utf8_valid (c_chars (slice s k (k + l)))) fields
  then ret tt else crash.

(** The [-unp86] loop [while cpd_mod_offset < cpd_ext_offset + cpd_ext_size]
    that reads each [mod_len]-byte module structure and calls its
    [ext_print()] (the tables themselves go to [ext_print_temp], which is
    only printed); [n] bounds the iterations. *)
Fixpoint print_mods (reading : bytes) (file_end : Z) (n : nat)
    (cpd_mod_offset ext_end mod_len : Z) (fields : list (Z * Z)) : M unit :=
  match n with
  | O => ret tt
  | S n' =>
      if cpd_mod_offset <? ext_end then
        let* mod_hdr_p := get_struct reading file_end cpd_mod_offset mod_len in
        decode_fields mod_hdr_p fields ;;
        print_mods reading file_end n' (cpd_mod_offset + mod_len) ext_end mod_len fields
      else ret tt
  end.

(** The block [if param.me11_mod_extr :] that precedes the tag dispatch. *)
Definition ext_print_info (reading : bytes) (file_end : Z) (ext_tag cpd_ext_offset cpd_ext_size : Z)
    : M unit :=
  match ext_struct_len ext_tag with
  | None => ret tt
  | Some ext_length =>
      let* ext_hdr_p := get_struct reading file_end cpd_ext_offset ext_length in
      decode_fields ext_hdr_p (ext_print_names ext_tag) ;;
      match mod_struct_len ext_tag with
      | None => ret tt
      | Some mod_length =>
          print_mods reading file_end (Z.to_nat cpd_ext_size) (cpd_ext_offset + ext_length)
            (cpd_ext_offset + cpd_ext_size) mod_length (mod_print_names ext_tag)
      end
  end.

(** [if met_name.endswith('.met.met') : met_name = met_name[:-4]] *)
Definition strip_met_met (met_name : bytes) : bytes :=
  if ends_with (tag_bytes ".met.met") met_name
  then firstn (List.length met_name - 4) met_name else met_name.

(** [while cpd_mod_offset < cpd_ext_offset + cpd_ext_size] over a trailing
    array of [mod_len]-byte records ([CPD_Ext_03_Mod]/[CPD_Ext_0F_Mod]):
    [mod_hdr_p.Name.decode('utf-8') + '.met'] (an invalid name raises
    [UnicodeDecodeError]), the [.met.met] repair, then
    [[name, MetadataHash]] is appended to [cpd_ext_hash]; [n] bounds the
    iterations (each advances by [mod_len >= 1]). *)
Fixpoint mod_records (reading : bytes) (file_end : Z) (n : nat)
    (cpd_mod_offset ext_end mod_len : Z) : M unit :=
  match n with
  | O => ret tt
  | S n' =>
      if cpd_mod_offset <? ext_end then
        let* mod_hdr_p := get_struct reading file_end cpd_mod_offset mod_len in
        let name := c_chars (slice mod_hdr_p 0 12) in
        if utf8_valid name then
          let met_name := strip_met_met (name ++ tag_bytes ".met") in
          let met_hash := map (fun i => u32 mod_hdr_p (0x14 + 4 * Z.of_nat i)) (seq 0 8) in
          modify (fun w => mk_world (err_stor w) (cpd_ext_hash w ++ [(met_name, met_hash)]) (files_done w)) ;;
          mod_records reading file_end n' (cpd_mod_offset + mod_len) ext_end mod_len
        else crash
      else ret tt
  end.

(** One pass's work on an extension: the [-unp86] block when
    [me11_mod_extr] is set, then the tag dispatch, where each handled tag
    reads its fixed-size header and 0x03 and 0x0F also walk their
    per-module arrays. *)
Definition ext_handle (me11_mod_extr : bool) (reading : bytes) (file_end : Z)
    (ext_tag cpd_ext_offset cpd_ext_size : Z) : M unit :=
  (if me11_mod_extr then ext_print_info reading file_end ext_tag cpd_ext_offset cpd_ext_size
   else ret tt) ;;
  let n := Z.to_nat cpd_ext_size in
  if ext_tag =? 3 then
    get_struct reading file_end cpd_ext_offset 0x58 ;;
    mod_records reading file_end n (cpd_ext_offset + 0x58) (cpd_ext_offset + cpd_ext_size) 0x34
  else if ext_tag =? 10 then get_struct reading file_end cpd_ext_offset 0x38 ;; ret tt
  else if ext_tag =? 12 then get_struct reading file_end cpd_ext_offset 0x30 ;; ret tt
  else if ext_tag =? 15 then
    get_struct reading file_end cpd_ext_offset 0x34 ;;
    mod_records reading file_end n (cpd_ext_offset + 0x34) (cpd_ext_offset + cpd_ext_size) 0x34
  else if ext_tag =? 16 then get_struct reading file_end cpd_ext_offset 0x60 ;; ret tt
  else if ext_tag =? 19 then get_struct reading file_end cpd_ext_offset 0xB4 ;; ret tt
  else ret tt.

(** The extension analysis of a .man or .met entry named [cpd_entry_name]
    (the [char*12] field read back), at [cpd_entry_offset] with declared
    size [cpd_entry_size], whose extensions start at [cpd_ext_offset]
    ([cpd_entry_offset] for a .met; past the $MN2 header, or 0 without
    one, for a .man): [ext_print.append(cpd_entry_name.decode('utf-8'))],
    then the loop. *)
Definition ext_anl_entry (me11_mod_extr : bool) (reading : bytes) (fuel : nat)
    (cpd_entry_name : bytes) (cpd_entry_offset cpd_entry_size cpd_ext_offset : Z)
    : M (option ext_end) :=
  let file_end := Z.of_nat (List.length reading) in
  let ext_tag := from_bytes_le (slice reading cpd_ext_offset (cpd_ext_offset + 4)) in
  if utf8_valid cpd_entry_name then
    ext_loop reading cpd_entry_offset cpd_entry_size (ext_handle me11_mod_extr reading file_end)
      fuel cpd_ext_offset ext_tag 0
  else crash.

(** A [.met] entry has no $MN2 header: [cpd_ext_offset = cpd_entry_offset]. *)
Definition ext_anl_met (me11_mod_extr : bool) (reading : bytes) (fuel : nat)
    (cpd_entry_name : bytes) (cpd_entry_offset cpd_entry_size : Z) : M (option ext_end) :=
  ext_anl_entry me11_mod_extr reading fuel cpd_entry_name cpd_entry_offset cpd_entry_size
    cpd_entry_offset.

End ExtLoop.

(** ** Uncharted partition walk after the last $FPT entry *)

Module Walk.
Import Exec.

Inductive fw_variant := ME | TXE | SPS.

(** The locals the walk reads and updates ([p_end_last], the $CPD entry
    maxima, [p_end_last_cont], [fpt_in_id]) and the uncharted partitions
    it stores in [fpt_part_all] (name, start, end, instance id). *)
Record walk_st := mk_walk {
  p_end_last : Z;
  cpd_offset_last : Z;
  cpd_end_last : Z;
  p_end_last_cont : Z;
  fpt_in_id : Z;
  fpt_part_all : list (bytes * Z * Z * Z)
}.

Definition set_p (s : walk_st) (p : Z) : walk_st :=
  mk_walk p (cpd_offset_last s) (cpd_end_last s) (p_end_last_cont s) (fpt_in_id s) (fpt_part_all s).

Definition bytes_eqb (a b : bytes) : bool := (List.length a =? List.length b)%nat && forallb (fun '(x, y) => x =? y) (combine a b).

Section WithImage.

Variables (reading : bytes) (file_end : Z) (variant : fw_variant) (major : Z) (me11_mod_extr : bool).

(** [reading[a:a + 4] == tag] *)
Definition tag_at (a : Z) (tag : string) : bool := bytes_eqb (slice reading a (a + 4)) (tag_bytes tag).

(** A ctypes [char*4] field compared with a tag. *)
Definition ctag (s : bytes) (k : Z) (tag : string) : bool := bytes_eqb (c_chars (slice s k (k + 4))) (tag_bytes tag).

(** TXE3+: the uncharted DNXP starts 0x1000 after the last $FPT entry. *)
Definition txe3_adjust (p : Z) : Z :=
  match variant with
  | TXE => if (major =? 3) && negb (tag_at p "$CPD") && tag_at (p + 0x1000) "$CPD" then p + 0x1000 else p
  | _ => p
  end.

Definition mme_size : Z := match variant with TXE => 0x80 | _ => 0x60 end.

(** [while reading[p_end_last + 0x1C:p_end_last + 0x20] == b'$MN2'] *)
Fixpoint mn2_loop (fuel : nat) (p : Z) : M (option Z) :=
  match fuel with
  | O => ret None
  | S fuel' =>
      if tag_at (p + 0x1C) "$MN2" then
        let* mn2_hdr := get_struct reading file_end p 0x284 in
        if u32 mn2_hdr 0x10 =? 0x8086 then
          let man_num := u32 mn2_hdr 0x20 in
          let man_len := u32 mn2_hdr 0x4 * 4 in
          let mod_start := p + man_len + 0xC in
          let mcp_start := mod_start + man_num * mme_size + mme_size in
          let* mcp_mod := get_struct reading file_end mcp_start 0x44 in
          if ctag mcp_mod 0 "$MCP" then mn2_loop fuel' (p + u32 mcp_mod 0xC + u32 mcp_mod 0x8)
          else ret (Some p)
        else ret (Some p)
      else ret (Some p)
  end.

(** [for _ in range(0, man_num)] over the $MME headers of a $MAN. *)
Fixpoint mme_loop (n : nat) (p mod_start mod_size_all : Z) : M Z :=
  match n with
  | O => ret p
  | S n' =>
      let* mme_mod := get_struct reading file_end mod_start 0x50 in
      if ctag mme_mod 0 "$MME" then
        let mod_size_all := mod_size_all + u32 mme_mod 0x40 in
        mme_loop n' (mod_start + 0x50 + 0xC + mod_size_all) (mod_start + 0x50) mod_size_all
      else ret (p + 10)
  end.

(** [while reading[p_end_last + 0x1C:p_end_last + 0x20] == b'$MAN'] *)
Fixpoint man_loop (fuel : nat) (p : Z) : M (option Z) :=
  match fuel with
  | O => ret None
  | S fuel' =>
      if tag_at (p + 0x1C) "$MAN" then
        let* mn2_hdr := get_struct reading file_end p 0x284 in
        if u32 mn2_hdr 0x10 =? 0x8086 then
          let man_num := u32 mn2_hdr 0x20 in
          let man_len := u32 mn2_hdr 0x4 * 4 in
          let* p' := mme_loop (Z.to_nat man_num) p (p + man_len + 0xC) 0 in
          man_loop fuel' p'
        else ret (Some p)
      else ret (Some p)
  end.

(** [for entry in range(1, cpd_num, 2)] over the $CPD entries at
    [p_end_last]; a [.met]/[.man] name ends the scan. *)
Fixpoint cpd_entry_scan (p : Z) (entries : list nat) (s : walk_st) : M walk_st :=
  match entries with
  | [] => ret s
  | entry :: rest =>
      let* e := get_struct reading file_end (p + 0x10 + Z.of_nat entry * 0x18) 0x18 in
      let cpd_mod_off := OffsetAttrib.cpd_mod_off (OffsetAttrib.decode (u32 e 0xC)) in
      let name := c_chars (slice e 0 12) in
      if negb (bytes_in (tag_bytes ".met") name) && negb (bytes_in (tag_bytes ".man") name) then
        if cpd_mod_off >? cpd_offset_last s then
          cpd_entry_scan p rest
            (mk_walk (p_end_last s) cpd_mod_off (cpd_mod_off + u32 e 0x10)
                     (p_end_last_cont s) (fpt_in_id s) (fpt_part_all s))
        else cpd_entry_scan p rest s
      else ret s
  end.

(** [range(1, cpd_num, 2)] *)
Definition odd_entries (cpd_num : Z) : list nat :=
  map (fun k => S (2 * k)) (seq 0 (Z.to_nat cpd_num / 2)).

(** One pass of [while reading[p_end_last:p_end_last + 0x4] == b'$CPD']:
    the updated locals and whether the loop goes on ([false] is a
    [break]). *)
Definition cpd_pass (s : walk_st) : M (walk_st * bool) :=
  let p := p_end_last s in
  let* cpd_hdr := get_struct reading file_end p 0x10 in
  let cpd_num := u32 cpd_hdr 0x4 in
  let cpd_tag := c_chars (slice cpd_hdr 0xC 0x10) in
  let mn2_start := p + 0x10 + cpd_num * 0x18 in
  let* mn2_hdr := get_struct reading file_end mn2_start 0x284 in
  if ctag mn2_hdr 0x1C "$MN2" then
    let man_len := u32 mn2_hdr 0x4 * 4 in
    let* cpd_ext_03 := get_struct reading file_end (mn2_start + man_len) 0x58 in
    let s := mk_walk p (cpd_offset_last s) (cpd_end_last s) (p_end_last_cont s)
                     (u32 cpd_ext_03 0x3C) (fpt_part_all s) in
    if bytes_eqb (c_chars (slice cpd_ext_03 0x8 0xC)) cpd_tag then
      let s := mk_walk p (cpd_offset_last s) (cpd_end_last s) (u32 cpd_ext_03 0xC)
                       (fpt_in_id s) (fpt_part_all s) in
      let* s := cpd_entry_scan p (odd_entries cpd_num) s in
      let p' := p + Z.max (p_end_last_cont s) (cpd_end_last s) in
      ret (mk_walk p' (cpd_offset_last s) (cpd_end_last s) (p_end_last_cont s) (fpt_in_id s)
             (if me11_mod_extr then fpt_part_all s ++ [(cpd_tag, p, p', fpt_in_id s)]
              else fpt_part_all s), true)
    else ret (s, false)
  else ret (s, false).

(** The $CPD loop; [None] when the fuel ran out. *)
Fixpoint cpd_loop (fuel : nat) (s : walk_st) : M (option walk_st) :=
  match fuel with
  | O => ret None
  | S fuel' =>
      if tag_at (p_end_last s) "$CPD" then
        let* r := cpd_pass s in
        if snd r then cpd_loop fuel' (fst r) else ret (Some (fst r))
      else ret (Some s)
  end.

(** The whole walk from the end of the last charted partition; [None]
    when the fuel of one of the loops ran out. *)
Definition uncharted_walk (fuel : nat) (p_end_last0 : Z) : M (option walk_st) :=
  let p := txe3_adjust p_end_last0 in
  let* r1 := mn2_loop fuel p in
  match r1 with
  | None => ret None
  | Some p =>
      let* r2 := man_loop fuel p in
      match r2 with
      | None => ret None
      | Some p => cpd_loop fuel (mk_walk p 0 0 0 0 [])
      end
  end.

End WithImage.

End Walk.

(** ** Concrete images for the uncharted walk *)

(** ** Manifest RSA signature check ([rsa_sig_val]) *)

Module Rsa.
Import Exec Hash.

(** [man_hdr_struct.<field>] read as [uint32_t[n]] at [off] of the
    manifest bytes. *)
Definition u32_array (m : bytes) (off : Z) (n : nat) : list Z :=
  map (fun i => u32 m (off + 4 * Z.of_nat i)) (seq 0 n).

(** [int(''.join('%0.8X' % val for val in reversed(ws)), 16)]; the
    [struct.pack('<I', val)] / [int.from_bytes(.., 'little')] round trip
    is the identity on a [uint32_t]. *)
Definition words_int (ws : list Z) : Z := int_base16 (List.concat (map (hex_pad 8) (rev ws))).

Definition rsa_pkey (m : bytes) : Z := words_int (u32_array m 0x80 64).

Definition rsa_sign (m : bytes) : Z := words_int (u32_array m 0x184 64).

Definition rsa_pexp (m : bytes) : Z := u32 m 0x180.

(** [pow(b, e, m)] for [m <> 0], by squaring. *)
Fixpoint pow_mod_pos (b : Z) (e : positive) (m : Z) : Z :=
  match e with
  | xH => b mod m
  | xO e' => let r := pow_mod_pos b e' m in (r * r) mod m
  | xI e' => let r := pow_mod_pos b e' m in (r * r * b) mod m
  end.

Definition pow_mod (b e m : Z) : Z :=
  match e with
  | Z0 => 1 mod m
  | Zpos p => pow_mod_pos b p m
  | Zneg _ => 0
  end.

(** [dec_sign] before formatting: [pow(man_sign, man_pexp, man_pkey)]. *)
Definition rsa_decrypted (m : bytes) : Z := pow_mod (rsa_sign m) (rsa_pexp m) (rsa_pkey m).

(** [(variant == 'ME' and major < 6) or (variant == 'SPS' and major < 2)] *)
Definition uses_sha1 (variant : Walk.fw_variant) (major : Z) : bool :=
  match variant with
  | Walk.ME => major <? 6
  | Walk.SPS => major <? 2
  | Walk.TXE => false
  end.

(** The two [rsa_hash.update] calls: [reading[check_start:check_start + 0x80]]
    then [reading[check_start + man_hdr:check_start + man_size]]. *)
Definition rsa_signed_data (reading m : bytes) (check_start : Z) : bytes :=
  slice reading check_start (check_start + 0x80) ++
  slice reading (check_start + u32 m 0x4 * 4) (check_start + u32 m 0x18 * 4).

(** [s[-n:]] on a string. *)
Definition last_chars {A} (n : nat) (s : list A) : list A := skipn (List.length s - n) s.

(** The returned list: [[dec_hash == rsa_hash, dec_hash, rsa_hash, False]],
    or [[False, 0, 0, True]] when [pow] raises (modulus 0). *)
Inductive rsa_result :=
  | RsaChecked (valid : bool) (dec_hash rsa_hash : list Z)
  | RsaError.

Definition rsa_sig_val (variant : Walk.fw_variant) (major : Z) (reading : bytes)
    (man_hdr_struct : bytes) (check_start : Z) : rsa_result :=
  if rsa_pkey man_hdr_struct =? 0 then RsaError else
  let dec_sign := hex_upper (rsa_decrypted man_hdr_struct) in
  let data := rsa_signed_data reading man_hdr_struct check_start in
  let '(dec_hash, rsa_hash) :=
    if uses_sha1 variant major then (last_chars 40 dec_sign, hexdigest 40 (sha1 data))
    else (last_chars 64 dec_sign, hexdigest 64 (sha256 data)) in
  RsaChecked (hex_eqb dec_hash rsa_hash) dec_hash rsa_hash.

End Rsa.

(** ** LZMA module hash verdict ([mod_anl]) *)

Module LzmaHash.
Import Hash.

(** [sha_256(data).upper()] *)
Definition sha_256 (d : bytes) : list Z := hexdigest 64 (sha256 d).

(** [mod_data[:0xE] + mod_data[0x11:]] when the LZMA header carries the
    three zero bytes. *)
Definition strip_header (mod_data : bytes) : bytes :=
  if prefix_of [0x36; 0; 0x40; 0; 0] mod_data && Walk.bytes_eqb (slice mod_data 0xE 0x11) [0; 0; 0]
  then firstn 0xE mod_data ++ skipn 0x11 mod_data
  else mod_data.

(** The fields of a [cpd_all_attr] row that the LZMA path reads. *)
Record lzma_mod := mk_lzma_mod {
  mod_start : Z;
  mod_size_comp : Z;
  mod_size_uncomp : Z;
  mod_empty : Z;
  mod_encr : Z;
  mod_hash : list Z
}.

Section Decompressor.

(** [lzma.LZMADecompressor().decompress(data)]: [None] when it raises. *)
Variable lzma_decompress : bytes -> option bytes.

(** The hash verdict [mod_anl] prints for an LZMA module ([mod_comp == 2]):
    [None] when the module is skipped ([mod_empty]), only reported as
    UNKNOWN ([mod_encr]) or fails to decompress; [Some true] for VALID,
    [Some false] for INVALID. *)
Definition lzma_verdict (reading : bytes) (md : lzma_mod) : option bool :=
  if mod_empty md =? 1 then None else
  let mod_data := slice reading (mod_start md) (mod_start md + mod_size_comp md) in
  let mea_hash_c := sha_256 mod_data in
  let mod_data := strip_header mod_data in
  if mod_encr md =? 1 then None else
  match lzma_decompress mod_data with
  | None => None
  | Some mod_data =>
      let data_size_uncomp := Z.of_nat (List.length mod_data) in
      let mod_data :=
        if negb (data_size_uncomp =? mod_size_uncomp md)
        then mod_data ++ repeat 0xFF (Z.to_nat (mod_size_uncomp md - data_size_uncomp))
        else mod_data in
      let mea_hash_u := sha_256 mod_data in
      Some (existsb (hex_eqb (mod_hash md)) [mea_hash_c; mea_hash_u])
  end.

End Decompressor.

(** The first dispatch of liblzma's automatic format detection, which
    [lzma.LZMADecompressor()] uses by default: 0xFD starts an .xz stream,
    0x4C ('L') an .lzip one, anything else a legacy .lzma header whose first
    byte encodes lc/lp/pb and is rejected above (4 * 5 + 4) * 9 + 8 = 224.
    The decoders behind the dispatch are left as parameters. *)
Definition lzma_auto (xz lzip alone : bytes -> option bytes) (d : bytes) : option bytes :=
  match d with
  | [] => Some []
  | b :: _ =>
      if b =? 0xFD then xz d
      else if b =? 0x4C then lzip d
      else if 224 <? b then None
      else alone d
  end.

End LzmaHash.

Module Images.

(** A $MN2 manifest header (0x284 bytes) with [HeaderLength] 0xA1,
    vendor 0x8086 and [Flags] 0. *)
Definition mn2_manifest : bytes :=
  le_bytes 4 4 ++ le_bytes 4 0xA1 ++ le_bytes 4 0x10000 ++ le_bytes 4 0 ++
  le_bytes 4 0x8086 ++ le_bytes 4 0 ++ le_bytes 4 0 ++ tag_bytes "$MN2" ++
  repeat 0 (0x284 - 0x20).

(** A [CPD_Ext_03] (0x58 bytes) for partition [name] with [PartitionSize]
    [psize] and [InstanceID] 0. *)
Definition ext_03 (name : string) (psize : Z) : bytes :=
  le_bytes 4 3 ++ le_bytes 4 0x58 ++ tag_bytes name ++ le_bytes 4 psize ++ repeat 0 0x48.

(** A $CPD header for [num] entries of partition [name]. *)
Definition cpd_header (num : Z) (name : string) : bytes :=
  tag_bytes "$CPD" ++ le_bytes 4 num ++ [1; 1; 0x10; 0] ++ tag_bytes name.

(** A $CPD entry: 12-byte name, attribute word, size, reserved. *)
Definition cpd_entry (name : string) (off_attr size : Z) : bytes :=
  tag_bytes name ++ repeat 0 (12 - String.length name) ++ le_bytes 4 off_attr ++ le_bytes 4 size ++ le_bytes 4 0.

(** An uncharted WCOD partition with no entries and [PartitionSize] 0:
    the size the walk computes for it is 0. *)
Definition zero_size_wcod : bytes :=
  cpd_header 0 "WCOD" ++ mn2_manifest ++ ext_03 "WCOD" 0.

(** A TXE3-style DNXP partition ([PartitionSize] 0xA) with entries
    [DNXP.man], [modA] at 0x100 (0x100 bytes) and [modB] at 0x200
    (0x1000 bytes). *)
Definition dnxp_three_entries : bytes :=
  cpd_header 3 "DNXP" ++
  cpd_entry "DNXP.man" 0x58 0x2DC ++ cpd_entry "modA" 0x100 0x100 ++ cpd_entry "modB" 0x200 0x1000 ++
  mn2_manifest ++ ext_03 "DNXP" 0xA.

(** The first 0x80 bytes of a manifest ([Size] 0, so they are all that
    the signature covers), with one byte [salt] at 0x40. *)
Definition rsa_head (salt : Z) : bytes := firstn 0x40 mn2_manifest ++ [salt] ++ repeat 0 0x3F.

(** A manifest whose modulus is 2^2048 - 1, whose exponent is 1 and
    whose signature is the SHA-256 of its signed data: the decrypted
    value is that digest. *)
Definition rsa_self_signed (salt : Z) : bytes :=
  rsa_head salt ++ le_bytes 256 (2 ^ 2048 - 1) ++ le_bytes 4 1 ++ le_bytes 256 (Hash.sha256 (rsa_head salt)).

(** The [file_end] of each image. *)
Definition zero_size_wcod_len : Z := Z.of_nat (List.length zero_size_wcod).

Definition dnxp_len : Z := Z.of_nat (List.length dnxp_three_entries).

(** A two-byte "LZMA" module whose first byte (0xFE) is no valid
    lc/lp/pb byte; the expected hash is the SHA-256 of the stored bytes. *)
Definition lzma_bad_props : bytes := [0xFE; 0].

Definition lzma_bad_mod : LzmaHash.lzma_mod :=
  LzmaHash.mk_lzma_mod 0 2 2 0 0 (LzmaHash.sha_256 lzma_bad_props).

(** A four-byte LZMA module that decompresses to [1; 2; 3] (declared
    uncompressed size 5), with the expected hash of [1; 2; 3; 0xFF; 0xFF]. *)
Definition lzma_small : bytes := [0x5D; 0; 0; 0].

Definition lzma_small_mod : LzmaHash.lzma_mod :=
  LzmaHash.mk_lzma_mod 0 4 5 0 0 (LzmaHash.sha_256 [1; 2; 3; 0xFF; 0xFF]).

End Images.

(** ** The size the spec assigns to a CPD-based uncharted partition *)

Module SpecSize.
Import Exec.

(** Written from the spec's words: the larger of Extension 0x03's
    [PartitionSize] and the maximum of [offset + size] over all
    non-metadata entries of the $CPD directory at [p]. *)
Definition entry_bytes (reading : bytes) (p : Z) (i : nat) : bytes :=
  slice reading (p + 0x10 + Z.of_nat i * 0x18) (p + 0x10 + Z.of_nat i * 0x18 + 0x18).

Definition entry_offset (e : bytes) : Z := OffsetAttrib.cpd_mod_off (OffsetAttrib.decode (u32 e 0xC)).

Definition entry_end (e : bytes) : Z := entry_offset e + u32 e 0x10.

Definition not_metadata (e : bytes) : bool :=
  let name := c_chars (slice e 0 12) in
  negb (bytes_in (tag_bytes ".met") name) && negb (bytes_in (tag_bytes ".man") name).

Definition cpd_num_at (reading : bytes) (p : Z) : Z := u32 (slice reading p (p + 0x10)) 0x4.

Definition ext03_at (reading : bytes) (p : Z) : Z :=
  let mn2_start := p + 0x10 + cpd_num_at reading p * 0x18 in
  mn2_start + u32 (slice reading mn2_start (mn2_start + 0x284)) 0x4 * 4.

Definition partition_size_at (reading : bytes) (p : Z) : Z :=
  u32 (slice reading (ext03_at reading p) (ext03_at reading p + 0x58)) 0xC.

Definition spec_partition_size (reading : bytes) (p : Z) : Z :=
  let entries := map (entry_bytes reading p) (seq 0 (Z.to_nat (cpd_num_at reading p))) in
  Z.max (partition_size_at reading p)
        (fold_right Z.max 0 (map entry_end (filter not_metadata entries))).

(** The entries the code's scan looks at (read from the code, to state
    what it computes): those at indices 1, 3, 5, ... up to the first one
    whose name contains [.met] or [.man]. *)
Fixpoint take_while {A} (f : A -> bool) (l : list A) : list A :=
  match l with
  | [] => []
  | x :: r => if f x then x :: take_while f r else []
  end.

Definition examined_entries (reading : bytes) (p : Z) : list bytes :=
  take_while not_metadata
    (map (entry_bytes reading p) (Walk.odd_entries (cpd_num_at reading p))).

End SpecSize.

(** A computation that can end the process only through [get_struct]'s
    [mea_exit(1)], with the out-of-bounds error stored, or through an
    uncaught exception ([sys.exit(-1)]). *)
Definition exits_reported {A} (m : Exec.M A) : Prop :=
  forall w c w', m w = Exec.Exit c w' ->
    (c = 1 /\ exists off, In (Exec.ErrOffsetOutOfBounds off) (Exec.err_stor w')) \/ c = -1.

Create HintDb exits.

(** ** Microcode checksum ([mc_chk32]) *)

Module Chk32.

(** [range(0, stop, step)] for [step > 0]. *)
Definition py_range (stop step : nat) : list nat :=
  map (fun k => step * k)%nat (seq 0 ((stop + step - 1) / step)).

(** [mc_chk32(data)]: the sum of the little-endian 4-byte words read at
    [0, 4, 8, ...] (the last one possibly shorter), negated and masked
    to 32 bits. *)
Definition mc_chk32 (data : bytes) : Z :=
  let chk32 := fold_left (fun chk32 idx =>
                  let chkbt := from_bytes_le (slice data (Z.of_nat idx) (Z.of_nat idx + 4)) in
                  chk32 + chkbt)
                (py_range (List.length data) 4) 0 in
  Z.land (- chk32) 0xFFFFFFFF.

(** The word sum seen byte by byte: byte [i] of the data weighs
    [256^(i mod 4)]. *)
Fixpoint wsum (i : nat) (d : bytes) : Z :=
  match d with
  | [] => 0
  | x :: r => x * 256 ^ Z.of_nat (i mod 4) + wsum (S i) r
  end.

End Chk32.

(** ** Hex text helpers ([binascii.b2a_hex], [str_split_as_bytes],
    [switch_guid], [krod_fit_sku], [intel_id], [fuj_umem_ver],
    [spi_fd('unlocked')]) *)

Module Text.
Import Hash.

(** Every value of a [bytes] buffer is a byte. *)
Definition byte_range (b : bytes) : Prop := Forall (fun x => 0 <= x < 256) b.

(** A Python [str] of ASCII text, as its list of characters. *)
Definition str := list ascii.

(** [s[a:b]] on a [str] for [0 <= a <= b]. *)
Definition str_slice (s : str) (a b : nat) : str := firstn (b - a) (skipn a s).

(** The characters [binascii.b2a_hex] writes for a hex digit value. *)
Definition hex_digit_lc (d : Z) : ascii :=
  if d <? 10 then ascii_of_nat (48 + Z.to_nat d) else ascii_of_nat (87 + Z.to_nat d).

(** [binascii.b2a_hex(b).decode('utf-8')]: two lower-case hex digits per
    byte. *)
Definition b2a_hex (b : bytes) : str :=
  List.concat (map (fun x => map hex_digit_lc (hex_pad 2 x)) b).

(** [str.upper()] on ASCII text. *)
Definition char_upper (c : ascii) : ascii :=
  let n := nat_of_ascii c in
  if (97 <=? n)%nat && (n <=? 122)%nat then ascii_of_nat (n - 32) else c.

Definition upper (s : str) : str := map char_upper s.

(** The value of a hex digit character (either case). *)
Definition hex_val (c : ascii) : option Z :=
  let n := nat_of_ascii c in
  if (48 <=? n)%nat && (n <=? 57)%nat then Some (Z.of_nat n - 48)
  else if (65 <=? n)%nat && (n <=? 70)%nat then Some (Z.of_nat n - 55)
  else if (97 <=? n)%nat && (n <=? 102)%nat then Some (Z.of_nat n - 87)
  else None.

Fixpoint hex_vals (s : str) : option (list Z) :=
  match s with
  | [] => Some []
  | c :: r =>
      match hex_val c, hex_vals r with
      | Some d, Some ds => Some (d :: ds)
      | _, _ => None
      end
  end.

(** [int(s, 16)] on a string of hex digits; the empty string (and any
    other character) raises [ValueError], modelled by [None]. *)
Definition py_int16 (s : str) : option Z :=
  match s with
  | [] => None
  | _ => option_map int_base16 (hex_vals s)
  end.

(** ['%s' % n] for an integer [n >= 0]: its decimal digits. *)
Fixpoint dec_digits (fuel : nat) (x : Z) (acc : str) : str :=
  match fuel with
  | O => acc
  | S f =>
      let acc' := ascii_of_nat (48 + Z.to_nat (x mod 10)) :: acc in
      if x <? 10 then acc' else dec_digits f (x / 10) acc'
  end.

Definition dec_str (x : Z) : str := dec_digits (S (Z.to_nat (Z.log2 x))) x [].

(** [sep.join(parts)] *)
Fixpoint join (sep : str) (parts : list str) : str :=
  match parts with
  | [] => []
  | [p] => p
  | p :: ps => p ++ sep ++ join sep ps
  end.

(** [[input_bytes[i:i + 2] for i in range(0, len(input_bytes), 2)]] *)
Definition pieces2 (input_bytes : str) : list str :=
  map (fun i => str_slice input_bytes i (i + 2)) (Chk32.py_range (List.length input_bytes) 2).

(** [str_split_as_bytes(input_bytes)]: [' '.join(pieces2 input_bytes)]. *)
Definition str_split_as_bytes (input_bytes : str) : str := join [" "%char] (pieces2 input_bytes).

(** [krod_fit_sku(start_sku_match)] for [start_sku_match >= 0x100]: the
    0x100 bytes before the KROD tag as spaced upper-case hex. *)
Definition krod_fit_sku (reading : bytes) (start_sku_match : Z) : str :=
  let sku_check := slice reading (start_sku_match - 0x100) start_sku_match in
  let sku_check := upper (b2a_hex sku_check) in
  str_split_as_bytes sku_check.

(** [switch_guid(guid)] *)
Definition switch_guid (guid : str) : str :=
  let vol := str_slice guid 6 8 ++ str_slice guid 4 6 ++ str_slice guid 2 4 ++ str_slice guid 0 2
             ++ ["-"%char] ++ str_slice guid 10 12 ++ str_slice guid 8 10 ++ ["-"%char] in
  let vol := vol ++ (str_slice guid 14 16 ++ str_slice guid 12 14 ++ ["-"%char]
                     ++ str_slice guid 16 20 ++ ["-"%char] ++ skipn 20 guid) in
  upper vol.

(** [intel_id()] for [start_man_match >= 0xB]: ['OK'] when the two bytes
    at [start_man_match - 0xB], read in reverse order, print as
    ["8086"], else ['continue']. *)
Definition intel_id (reading : bytes) (start_man_match : Z) : string :=
  let intel_id := slice reading (start_man_match - 0xB) (start_man_match - 0x9) in
  let intel_id := b2a_hex (rev intel_id) in
  if list_eq_dec ascii_dec intel_id ["8"; "0"; "8"; "6"]%char then "OK"%string else "continue"%string.

(** [fuj_umem_ver(me_fd_start)] for [me_fd_start >= 0]; [None] when one
    of the [int(.., 16)] calls raises (an empty slice past the end of the
    file). *)
Definition fuj_umem_ver (reading : bytes) (me_fd_start : Z) : option str :=
  let rgn_fuj_hdr := upper (b2a_hex (slice reading me_fd_start (me_fd_start + 0x4))) in
  if list_eq_dec ascii_dec rgn_fuj_hdr ["5"; "5"; "4"; "D"; "C"; "9"; "4"; "D"]%char then
    let field a := py_int16 (b2a_hex (rev (slice reading (me_fd_start + a) (me_fd_start + a + 2)))) in
    match field 0xB, field 0xD, field 0xF, field 0x11 with
    | Some major, Some minor, Some hotfix, Some build =>
        Some (dec_str major ++ ["."%char] ++ dec_str minor ++ ["."%char] ++
              dec_str hotfix ++ ["."%char] ++ dec_str build)
    | _, _, _, _ => None
    end
  else Some ["N"; "a"; "N"]%char.

(** [spi_fd('unlocked', start_fd_match, end_fd_match)] for
    [end_fd_match >= 0]: 2 (unlocked) when the region access bytes all
    print as [FF], 1 (locked) otherwise; [None] (the function falls off
    its end) for the variants none of the branches covers. *)
Definition spi_fd_unlocked (variant : Walk.fw_variant) (major : Z) (reading : bytes)
    (end_fd_match : Z) : option Z :=
  let rd a b := slice reading (end_fd_match + a) (end_fd_match + b) in
  let ff n := repeat "F"%char n in
  let verdict fd_bytes n :=
    if list_eq_dec ascii_dec (upper (b2a_hex fd_bytes)) (ff n) then Some 2 else Some 1 in
  if match variant with Walk.ME => major <=? 10 | Walk.TXE => major <=? 2 | Walk.SPS => false end then
    verdict (rd 0x4E 0x50 ++ rd 0x52 0x54 ++ rd 0x56 0x58) 12%nat
  else if match variant with Walk.ME => 10 <? major | _ => false end then
    verdict (rd 0x6D 0x70 ++ rd 0x71 0x74 ++ rd 0x75 0x78 ++ rd 0x7D 0x80) 24%nat
  else if match variant with Walk.TXE => 2 <? major | _ => false end then
    verdict (rd 0x6D 0x70 ++ rd 0x71 0x74) 12%nat
  else None.

End Text.

(** ** Message stores ([gen_msg]) *)

Module Msgs.
Local Open Scope string_scope.

(** [err_stor], [warn_stor] and [note_stor] are global lists; [gen_msg]
    receives one of them as [msg_type] and may clear [err_stor], so the
    target is modelled as a reference to one of the three. [printed]
    collects what [print] writes. *)
Inductive store := ErrStor | WarnStor | NoteStor.

Record stores := mk_stores {
  err_stor : list string;
  warn_stor : list string;
  note_stor : list string;
  printed : list string
}.

Definition nl : string := String "010"%char EmptyString.

Definition append_to (t : store) (m : string) (s : stores) : stores :=
  match t with
  | ErrStor => mk_stores (app (err_stor s) [m]) (warn_stor s) (note_stor s) (printed s)
  | WarnStor => mk_stores (err_stor s) (app (warn_stor s) [m]) (note_stor s) (printed s)
  | NoteStor => mk_stores (err_stor s) (warn_stor s) (app (note_stor s) [m]) (printed s)
  end.

Definition print (m : string) (s : stores) : stores :=
  mk_stores (err_stor s) (warn_stor s) (note_stor s) (app (printed s) [m]).

Definition is_empty {A} (l : list A) : bool := match l with [] => true | _ => false end.

(** [gen_msg(msg_type, msg, command)] with the flags [param.print_msg]
    and [param.me11_mod_extr]. *)
Definition gen_msg (print_msg me11_mod_extr : bool) (msg_type : store) (msg command : string)
    (s : stores) : stores :=
  let s := if String.eqb command "del" then mk_stores [] (warn_stor s) (note_stor s) (printed s) else s in
  let s := if negb print_msg && me11_mod_extr && String.eqb command "unp" then print (nl ++ msg ++ nl) s
           else if negb print_msg && String.eqb command "unp" then print (msg ++ nl) s
           else if negb print_msg then print (nl ++ msg) s
           else s in
  if is_empty (err_stor s) && is_empty (warn_stor s) && is_empty (note_stor s)
  then append_to msg_type msg s
  else append_to msg_type (nl ++ msg) s.

(** A stored message that does not start with a line break. *)
Definition starts_nl (m : string) : bool :=
  match m with String c _ => Ascii.eqb c "010"%char | EmptyString => false end.

Definition no_nl_count (s : stores) : nat :=
  List.length (filter (fun m => negb (starts_nl m)) (app (err_stor s) (app (warn_stor s) (note_stor s)))).

(** One call [gen_msg(msg_type, msg, command)]. *)
Record call := mk_call { c_type : store; c_msg : string; c_command : string }.

Definition run_calls (print_msg me11_mod_extr : bool) (calls : list call) (s : stores) : stores :=
  fold_left (fun s c => gen_msg print_msg me11_mod_extr (c_type c) (c_msg c) (c_command c) s) calls s.

Definition no_stores : stores := mk_stores [] [] [] [].

End Msgs.

(** ** Partitions recorded by the uncharted walk *)

Module WalkParts.

(** The records [(name, start, end, id)] of [fpt_part_all] tile the span
    from [start] to [stop]: each one starts where the previous one ends. *)
Fixpoint parts_chain (start : Z) (parts : list (bytes * Z * Z * Z)) (stop : Z) : bool :=
  match parts with
  | [] => start =? stop
  | (_, a, b, _) :: r => (a =? start) && parts_chain b r stop
  end.

End WalkParts.

(** ** Properties *)

Section OffsetAttribProofs.
Import OffsetAttrib.

Lemma bin_digits_length w x : List.length (bin_digits w x) = w.
Proof.
  revert x; induction w as [|w IH]; intros x; simpl; [reflexivity|].
  rewrite length_app, IH; simpl; lia.
Qed.

Lemma bin_digits_S w x :
  bin_digits (S w) x = bin_digits w (x / 2) ++ [if Z.odd x then "1"%char else "0"%char].
Proof. reflexivity. Qed.

Lemma int_base2_app s t :
  int_base2 (s ++ t) = fold_left (fun acc c => acc * 2 + (if Ascii.eqb c "1"%char then 1 else 0)) t (int_base2 s).
Proof. unfold int_base2; now rewrite fold_left_app. Qed.

Lemma int_base2_bin_digits w x : int_base2 (bin_digits w x) = x mod 2 ^ Z.of_nat w.
Proof.
  revert x; induction w as [|w IH]; intros x.
  - simpl. now rewrite Z.mod_1_r.
  - simpl bin_digits. rewrite int_base2_app, IH. cbn [fold_left].
    rewrite Nat2Z.inj_succ, Z.pow_succ_r by lia.
    rewrite Z.rem_mul_r by (try apply Z.pow_pos_nonneg; lia).
    rewrite Zmod_odd. destruct (Z.odd x); cbv [Ascii.eqb Bool.eqb]; lia.
Qed.

Lemma bin_digits_add a b x :
  bin_digits (a + b) x = bin_digits a (x / 2 ^ Z.of_nat b) ++ bin_digits b x.
Proof.
  revert x; induction b as [|b IH]; intros x.
  - rewrite Nat.add_0_r, app_nil_r. simpl. now rewrite Z.div_1_r.
  - rewrite Nat.add_succ_r, Nat2Z.inj_succ, Z.pow_succ_r by lia.
    cbn [bin_digits]. rewrite IH, app_assoc.
    rewrite Z.div_div by (try apply Z.pow_pos_nonneg; lia). reflexivity.
Qed.

Lemma format_032b_split x :
  format_032b x = bin_digits 7 (x / 2 ^ 25) ++ bin_digits 25 x.
Proof.
  unfold format_032b. change 32%nat with (7 + 25)%nat.
  rewrite bin_digits_add. reflexivity.
Qed.

Lemma decode_offset x : cpd_mod_off (decode x) = x mod 2 ^ 25.
Proof.
  unfold decode. cbn [cpd_mod_off]. rewrite format_032b_split.
  rewrite skipn_app, bin_digits_length, Nat.sub_diag.
  rewrite skipn_all2 by (rewrite bin_digits_length; lia).
  cbn [app skipn]. apply (int_base2_bin_digits 25).
Qed.

Lemma decode_huff x : cpd_mod_huff (decode x) = Z.b2z (Z.testbit x 25).
Proof.
  unfold decode. cbn [cpd_mod_huff]. rewrite format_032b_split.
  rewrite app_nth1 by (rewrite bin_digits_length; lia).
  change 7%nat with (S 6). rewrite bin_digits_S.
  rewrite app_nth2 by (rewrite bin_digits_length; lia).
  rewrite bin_digits_length, Nat.sub_diag. cbn [nth].
  rewrite Z.testbit_spec' by lia. rewrite Zmod_odd.
  destruct (Z.odd (x / 2 ^ 25)); reflexivity.
Qed.

End OffsetAttribProofs.
Lemma sum_bytes_app a b : sum_bytes (a ++ b) = sum_bytes a + sum_bytes b.
Proof. unfold sum_bytes. rewrite fold_right_app. induction a; simpl; lia. Qed.

Lemma sum_bytes_without (d : bytes) c :
  nth_error d 11 = Some c ->
  sum_bytes d - c = sum_bytes (firstn 11 d ++ skipn 12 d).
Proof.
  intros H. apply nth_error_split in H as (l1 & l2 & -> & Hl).
  rewrite <- Hl, firstn_app, Nat.sub_diag, firstn_all, app_nil_r.
  change (S (List.length l1)) with (1 + List.length l1)%nat.
  rewrite skipn_app, skipn_all2 by lia.
  replace (1 + List.length l1 - List.length l1)%nat with 1%nat by lia.
  rewrite !sum_bytes_app. cbn. lia.
Qed.

(** [C1] For every 32-bit $CPD entry attribute word, [ext_anl] decodes the
    module offset as the word modulo 2^25 and the Huffman flag as bit 25;
    the offset does not depend on the upper seven bits (a word with any
    other upper bits gives the same offset) and the decoding has no
    failure branch for non-zero reserved bits. *)
Theorem cpd_offset_attrib_decode (w : Z) :
  OffsetAttrib.cpd_mod_off (OffsetAttrib.decode w) = w mod 2 ^ 25 /\
  OffsetAttrib.cpd_mod_huff (OffsetAttrib.decode w) = Z.b2z (Z.testbit w 25) /\
  (forall hi, OffsetAttrib.cpd_mod_off (OffsetAttrib.decode (hi * 2 ^ 25 + w mod 2 ^ 25))
              = OffsetAttrib.cpd_mod_off (OffsetAttrib.decode w)).
Proof.
  split; [apply decode_offset|]. split; [apply decode_huff|].
  intros hi. rewrite !decode_offset.
  rewrite Z.add_comm, Z.mod_add, Z.mod_mod by lia. reflexivity.
Qed.

(** [C9] (as amended) The attribute word 0x01000005 decodes to offset
    0x01000005 (bit 24 lies inside the 25-bit offset field) with Huffman
    flag 0, and 0x02000005 (bit 25 set) decodes to offset 5 with Huffman
    flag 1. *)
Theorem cpd_offset_attrib_examples :
  OffsetAttrib.cpd_mod_off (OffsetAttrib.decode 0x01000005) = 0x01000005 /\
  OffsetAttrib.cpd_mod_huff (OffsetAttrib.decode 0x01000005) = 0 /\
  OffsetAttrib.cpd_mod_off (OffsetAttrib.decode 0x02000005) = 5 /\
  OffsetAttrib.cpd_mod_huff (OffsetAttrib.decode 0x02000005) = 1.
Proof. vm_compute. repeat split. Qed.

(** Counterexample to [C9] as stated: 0x01000005 does not decode to
    offset 5. *)
Lemma cpd_offset_attrib_example_not_5 :
  ~ (OffsetAttrib.cpd_mod_off (OffsetAttrib.decode 0x01000005) = 5 /\
     OffsetAttrib.cpd_mod_huff (OffsetAttrib.decode 0x01000005) = 0 /\
     OffsetAttrib.cpd_mod_off (OffsetAttrib.decode 0x02000005) = 5 /\
     OffsetAttrib.cpd_mod_huff (OffsetAttrib.decode 0x02000005) = 1).
Proof. vm_compute. intros [H _]. discriminate H. Qed.

(** [C3] For every buffer holding a $CPD directory (at least the 12 bytes
    up to the checksum byte at offset 0xB), [cpd_chk] accepts it exactly
    when [(0x100 - sum(all bytes except the one at 0xB)) & 0xFF] equals the
    byte at offset 0xB. *)
Theorem cpd_chk_spec (cpd_data : bytes) :
  (11 < List.length cpd_data)%nat ->
  cpd_chk cpd_data = Some true <->
  Z.land (256 - sum_bytes (firstn 11 cpd_data ++ skipn 12 cpd_data)) 255 = nth 11 cpd_data 0.
Proof.
  intros Hlen. unfold cpd_chk.
  destruct (nth_error cpd_data 11) as [c|] eqn:E.
  2:{ apply nth_error_None in E. lia. }
  rewrite (nth_error_nth _ _ _ E).
  rewrite <- (sum_bytes_without _ _ E), <- Z.land_assoc, Z.land_diag.
  split; intros H.
  - injection H as H. apply Z.eqb_eq in H. now symmetry.
  - rewrite H, Z.eqb_refl. reflexivity.
Qed.

Lemma cpd_chk_spec_witness :
  (11 < List.length [36;67;80;68;1;0;0;0;1;1;16;114])%nat /\
  (cpd_chk [36;67;80;68;1;0;0;0;1;1;16;114] = Some true <->
   Z.land (256 - sum_bytes (firstn 11 [36;67;80;68;1;0;0;0;1;1;16;114] ++
                            skipn 12 [36;67;80;68;1;0;0;0;1;1;16;114])) 255 =
   nth 11 [36;67;80;68;1;0;0;0;1;1;16;114] 0).
Proof.
  split; [simpl; lia|].
  apply cpd_chk_spec. simpl; lia.
Defined.

Section IbbpProofs.
Import Ibbp.

(** [C8] (code defect) With IBBL and IBB declared in the IBBP metadata but
    absent from the $CPD entries, the removal deletes the rows at the
    collected indices 1 and 2 one after the other: after the first deletion
    the second index points at OBB, so IBB stays in the result and the
    present OBB row is dropped; with all three absent the third deletion
    raises [IndexError]. *)
Theorem ibbp_removal_index_shift :
  ibbp_resolve ibbp_pass1_rows ["BPM"]%string
    [mk_entry "BPM.met" 0x100 0x40; mk_entry "BPM" 0x140 0x20; mk_entry "OBB" 0x160 0x20]%string
  = Some [mk_attr "BPM" 0x140 0x20 0x20 "00"; mk_attr "IBB" 0 0 0 "00"]%string /\
  ibbp_resolve ibbp_pass1_rows ["BPM"]%string
    [mk_entry "BPM.met" 0x100 0x40; mk_entry "BPM" 0x140 0x20]%string
  = None.
Proof. split; vm_compute; reflexivity. Qed.

End IbbpProofs.

Section BatchProofs.
Import Exec Batch.






End BatchProofs.

Section ExtLoopProofs.
Import Exec ExtLoop.

Lemma exits_reported_ret {A} (a : A) : exits_reported (ret a).
Proof. intros w c w' H. discriminate H. Qed.

Lemma exits_reported_modify f : exits_reported (modify f).
Proof. intros w c w' H. discriminate H. Qed.

Lemma exits_reported_crash {A} : exits_reported (@crash A).
Proof. intros w c w' H. injection H as <- _. right. reflexivity. Qed.

Lemma exits_reported_bind {A B} (m : M A) (k : A -> M B) :
  exits_reported m -> (forall a, exits_reported (k a)) -> exits_reported (bind m k).
Proof.
  intros Hm Hk w c w' H. unfold bind in H.
  destruct (m w) as [a w1|c1 w1] eqn:E.
  - eapply Hk; eauto.
  - injection H as <- <-. eapply Hm; eauto.
Qed.

Lemma exits_reported_get_struct s fe off len : exits_reported (get_struct s fe off len).
Proof.
  unfold get_struct. destruct (_ || _).
  - intros w c w' H. cbn in H. injection H as <- <-. left. split; [reflexivity|].
    exists off. cbn. apply in_or_app. right. left. reflexivity.
  - apply exits_reported_ret.
Qed.

#[local] Hint Resolve exits_reported_ret exits_reported_modify exits_reported_crash
  exits_reported_bind exits_reported_get_struct : exits.

Lemma exits_reported_decode_fields s fields : exits_reported (decode_fields s fields).
Proof. unfold decode_fields. destruct (forallb _ _); auto with exits. Qed.

#[local] Hint Resolve exits_reported_decode_fields : exits.

Lemma exits_reported_print_mods reading fe n off e len fields :
  exits_reported (print_mods reading fe n off e len fields).
Proof.
  revert off; induction n as [|n IH]; intros off; simpl; [auto with exits|].
  destruct (off <? e); auto with exits.
Qed.

#[local] Hint Resolve exits_reported_print_mods : exits.

Lemma exits_reported_ext_print_info reading fe tag off size :
  exits_reported (ext_print_info reading fe tag off size).
Proof.
  unfold ext_print_info. destruct (ext_struct_len tag); [|auto with exits].
  apply exits_reported_bind; [auto with exits|]. intros hdr.
  apply exits_reported_bind; [auto with exits|]. intros _.
  destruct (mod_struct_len tag); auto with exits.
Qed.

#[local] Hint Resolve exits_reported_ext_print_info : exits.

Lemma exits_reported_mod_records reading fe n off e len :
  exits_reported (mod_records reading fe n off e len).
Proof.
  revert off; induction n as [|n IH]; intros off; simpl; [auto with exits|].
  destruct (off <? e); [|auto with exits].
  apply exits_reported_bind; [auto with exits|]. intros hdr.
  destruct (utf8_valid _); auto with exits.
Qed.

#[local] Hint Resolve exits_reported_mod_records : exits.

Lemma exits_reported_ext_handle unp reading fe tag off size :
  exits_reported (ext_handle unp reading fe tag off size).
Proof.
  unfold ext_handle. apply exits_reported_bind; [destruct unp; auto with exits|]. intros _.
  repeat match goal with |- context [if ?b then _ else _] => destruct b end; auto with exits.
Qed.

(** The loop stops within [101 - loop_break] passes, whatever the handler
    does, as long as the handler can end the process only after storing
    the out-of-bounds error with code 1, or by an uncaught exception. *)
Lemma ext_loop_bounded reading eoff esize handle :
  (forall t o z, exits_reported (handle t o z)) ->
  forall fuel off tag lb w, 0 <= lb <= 100 -> 101 <= Z.of_nat fuel + lb ->
  match ext_loop reading eoff esize handle fuel off tag lb w with
  | Ret None _ => False
  | Ret (Some (EndOfEntry n)) _ => 1 <= n <= 100
  | Ret (Some (ForcedBreak n)) w' => n = 100 /\ In ErrForcedExtBreak (err_stor w')
  | Exit c w' =>
      (c = 1 /\ exists off', In (ErrOffsetOutOfBounds off') (err_stor w')) \/ c = -1
  end.
Proof.
  intros Hh fuel. induction fuel as [|fuel IH]; intros off tag lb w Hlb Hf; [lia|].
  cbn [ext_loop]. destruct (lb + 1 >? 100) eqn:Ecap.
  - unfold bind, modify, ret, push_err. cbn. split; [lia|].
    apply in_or_app. right. left. reflexivity.
  - unfold bind at 1.
    set (sel := if existsb (Z.eqb tag) ext_tag_all then _ else _).
    assert (Hsel : forall w0, exists t w1, sel w0 = Ret t w1).
    { intros w0. subst sel. destruct (existsb _ _); cbn; eauto. }
    destruct (Hsel w) as (t & w1 & ->).
    unfold bind at 1.
    destruct (handle t off _ w1) as [[] w2|c w2] eqn:Eh.
    + destruct (off + _ + 1 >? eoff + esize) eqn:Eend.
      * cbn. lia.
      * apply IH; lia.
    + eapply Hh; eauto.
Qed.

(** [C7] (as amended) For every .man or .met entry, with or without
    [-unp86], the extension loop of [ext_anl] stops within 101 passes on
    every input: either the extension chain reaches the end of the entry
    after at most 100 processed extensions, or the 101st pass stores the
    forced-break error and stops after 100 (this covers declared lengths
    of 0); in neither case is more fuel needed. The analysis can however
    end the whole process instead: through [get_struct]'s [mea_exit(1)],
    after storing the out-of-bounds error, when a read goes past the
    buffer, or with [sys.exit(-1)] from the exception hook when a name
    field is not valid UTF-8 and [.decode('utf-8')] raises. *)
Theorem ext_anl_entry_loop_terminates (me11_mod_extr : bool) (reading : bytes) (fuel : nat)
    (name : bytes) (off size xoff : Z) (w : world) :
  (101 <= fuel)%nat ->
  match ext_anl_entry me11_mod_extr reading fuel name off size xoff w with
  | Ret None _ => False
  | Ret (Some (EndOfEntry n)) _ => 1 <= n <= 100
  | Ret (Some (ForcedBreak n)) w' => n = 100 /\ In ErrForcedExtBreak (err_stor w')
  | Exit c w' =>
      (c = 1 /\ exists off', In (ErrOffsetOutOfBounds off') (err_stor w')) \/ c = -1
  end.
Proof.
  intros Hf. unfold ext_anl_entry. destruct (utf8_valid name).
  - apply ext_loop_bounded; [|lia|lia].
    intros. apply exits_reported_ext_handle.
  - right. reflexivity.
Qed.

Lemma ext_anl_entry_loop_terminates_witness :
  (101 <= 101)%nat /\
  match ext_anl_entry true (le_bytes 4 10 ++ le_bytes 4 0 ++ repeat 0 0x30) 101
          (tag_bytes "IBBL.met") 0 0x100 0 (mk_world [] [] []) with
  | Ret None _ => False
  | Ret (Some (EndOfEntry n)) _ => 1 <= n <= 100
  | Ret (Some (ForcedBreak n)) w' => n = 100 /\ In ErrForcedExtBreak (err_stor w')
  | Exit c w' =>
      (c = 1 /\ exists off', In (ErrOffsetOutOfBounds off') (err_stor w')) \/ c = -1
  end.
Proof.
  split; [lia|].
  apply (ext_anl_entry_loop_terminates true (le_bytes 4 10 ++ le_bytes 4 0 ++ repeat 0 0x30) 101
           (tag_bytes "IBBL.met") 0 0x100 0).
  lia.
Defined.

(** A chain whose declared length is 0 is cut by the 100-pass cap, with
    or without [-unp86]. *)
Example ext_anl_met_zero_length :
  ext_anl_met false (le_bytes 4 10 ++ le_bytes 4 0 ++ repeat 0 0x38) 101 (tag_bytes "IBBL.met")
    0 0x100 (mk_world [] [] [])
  = Ret (Some (ForcedBreak 100)) (mk_world [ErrForcedExtBreak] [] []) /\
  ext_anl_met true (le_bytes 4 10 ++ le_bytes 4 0 ++ repeat 0 0x38) 101 (tag_bytes "IBBL.met")
    0 0x100 (mk_world [] [] [])
  = Ret (Some (ForcedBreak 100)) (mk_world [ErrForcedExtBreak] [] []).
Proof. split; vm_compute; reflexivity. Qed.

(** An Extension 0x03 with one module record named [b'ABCD.met'] stores
    [ABCD.met] (the [.met.met] repair) with its metadata hash words. *)
Example ext_anl_met_met_met_repair :
  ext_anl_met false (le_bytes 4 3 ++ le_bytes 4 0x8C ++ repeat 0 0x50 ++
                     tag_bytes "ABCD.met" ++ repeat 0 0x0C ++ le_bytes 4 7 ++ repeat 0 0x1C)
    101 (tag_bytes "IBBL.met") 0 0x8C (mk_world [] [] [])
  = Ret (Some (EndOfEntry 1)) (mk_world [] [(tag_bytes "ABCD.met", [7; 0; 0; 0; 0; 0; 0; 0])] []).
Proof. vm_compute. reflexivity. Qed.

(** Counterexample to [C7] as stated: two .met entries whose extension
    parsing ends the whole process instead of reporting an error for the
    entry. In the first, the single module record of an Extension 0x03
    has the name [b'\xff'], which is not UTF-8: [.decode('utf-8')] raises
    and the exception hook exits with -1. In the second, the Extension
    0x03 declares a length (0x1000) beyond the 0x58 bytes left in the
    buffer: the first module record read goes past the buffer and
    [get_struct] exits with 1. *)
Lemma ext_anl_met_crash_and_exit :
  ext_anl_met false (le_bytes 4 3 ++ le_bytes 4 0x8C ++ repeat 0 0x50 ++ [0xFF] ++ repeat 0 0x33)
    101 (tag_bytes "IBBL.met") 0 0x100 (mk_world [] [] [])
  = Exit (-1) (mk_world [] [] []) /\
  ext_anl_met false (le_bytes 4 3 ++ le_bytes 4 0x1000 ++ repeat 0 0x50)
    101 (tag_bytes "IBBL.met") 0 0x2000 (mk_world [] [] [])
  = Exit 1 (mk_world [ErrOffsetOutOfBounds 0x58] [] []).
Proof. split; vm_compute; reflexivity. Qed.

End ExtLoopProofs.

Section WalkProofs.
Import Exec Walk.

Lemma zero_size_wcod_pass w :
  cpd_pass Images.zero_size_wcod Images.zero_size_wcod_len false (mk_walk 0 0 0 0 0 []) w =
  Ret (mk_walk 0 0 0 0 0 [], true) w.
Proof. vm_compute. reflexivity. Qed.

Lemma zero_size_wcod_cpd_loop fuel w :
  cpd_loop Images.zero_size_wcod Images.zero_size_wcod_len false fuel (mk_walk 0 0 0 0 0 []) w = Ret None w.
Proof.
  induction fuel as [|fuel IH]; [reflexivity|].
  cbn [cpd_loop]. replace (tag_at Images.zero_size_wcod (p_end_last (mk_walk 0 0 0 0 0 [])) "$CPD")
    with true by (vm_compute; reflexivity).
  unfold bind. rewrite zero_size_wcod_pass. exact IH.
Qed.

(** [C5] (code defect) An image whose last charted partition is followed
    by a $CPD partition with no entries and an Extension 0x03
    [PartitionSize] of 0: the $CPD pass adds [max(0, 0)] to [p_end_last],
    so it finds the same [$CPD] signature again, and the walk never stops:
    for every amount of fuel it runs out. *)
Theorem uncharted_walk_no_progress_diverges :
  (forall w, cpd_pass Images.zero_size_wcod Images.zero_size_wcod_len false (mk_walk 0 0 0 0 0 []) w =
             Ret (mk_walk 0 0 0 0 0 [], true) w) /\
  (forall fuel w, uncharted_walk Images.zero_size_wcod Images.zero_size_wcod_len ME 11 false fuel 0 w = Ret None w).
Proof.
  split; [exact zero_size_wcod_pass|].
  intros [|fuel] w; [reflexivity|].
  unfold uncharted_walk.
  replace (txe3_adjust Images.zero_size_wcod ME 11 0) with 0 by reflexivity.
  cbn [mn2_loop]. replace (tag_at Images.zero_size_wcod (0 + 0x1C) "$MN2") with false
    by (vm_compute; reflexivity).
  unfold bind at 1, ret at 1.
  cbn [man_loop]. replace (tag_at Images.zero_size_wcod (0 + 0x1C) "$MAN") with false
    by (vm_compute; reflexivity).
  unfold bind at 1, ret at 1.
  apply zero_size_wcod_cpd_loop.
Qed.

End WalkProofs.


Section SizeProofs.
Import Exec Walk SpecSize.

Lemma get_struct_ret r fe off len w d w' :
  get_struct r fe off len w = Ret d w' -> d = slice r off (off + len) /\ w' = w.
Proof.
  unfold get_struct. destruct (_ || _).
  - unfold bind, modify, mea_exit. cbn. discriminate.
  - unfold ret. intros H. injection H as <- <-. auto.
Qed.

Lemma cpd_entry_scan_cons reading fe p i idxs s :
  cpd_entry_scan reading fe p (i :: idxs) s =
  bind (get_struct reading fe (p + 0x10 + Z.of_nat i * 0x18) 0x18) (fun e =>
    if not_metadata e then
      if entry_offset e >? cpd_offset_last s then
        cpd_entry_scan reading fe p idxs
          (mk_walk (p_end_last s) (entry_offset e) (entry_end e)
                   (p_end_last_cont s) (fpt_in_id s) (fpt_part_all s))
      else cpd_entry_scan reading fe p idxs s
    else ret s).
Proof. unfold not_metadata, entry_end, entry_offset. reflexivity. Qed.

Lemma cpd_entry_scan_spec reading fe p idxs : forall s w s' w',
  cpd_entry_scan reading fe p idxs s w = Ret s' w' ->
  let L := take_while not_metadata (map (entry_bytes reading p) idxs) in
  p_end_last s' = p_end_last s /\ p_end_last_cont s' = p_end_last_cont s /\
  fpt_part_all s' = fpt_part_all s /\
  ((cpd_end_last s' = cpd_end_last s /\ Forall (fun e => entry_offset e <= cpd_offset_last s) L) \/
   (exists e, In e L /\ cpd_offset_last s < entry_offset e /\ cpd_end_last s' = entry_end e /\
              Forall (fun e' => entry_offset e' <= entry_offset e) L)).
Proof.
  induction idxs as [|i idxs IH]; intros s w s' w' H L.
  - injection H as <- _. subst L. cbn. do 3 (split; [reflexivity|]). left. split; [reflexivity | constructor].
  - rewrite cpd_entry_scan_cons in H. unfold bind in H.
    destruct (get_struct _ _ _ _ w) as [e w1|c w1] eqn:Eg; [|discriminate].
    apply get_struct_ret in Eg as [He1 ->].
    subst L. cbn [map take_while].
    replace (entry_bytes reading p i) with e by (unfold entry_bytes; rewrite He1; reflexivity).
    destruct (not_metadata e) eqn:Em.
    + destruct (entry_offset e >? cpd_offset_last s) eqn:Eo.
      * apply IH in H as (Hp & Hc & Hf & Hd). cbn [p_end_last p_end_last_cont cpd_end_last cpd_offset_last fpt_part_all] in Hp, Hc, Hf, Hd.
        split; [exact Hp|]. split; [exact Hc|]. split; [exact Hf|].
        right. apply Z.gtb_lt in Eo.
        destruct Hd as [(He & Hall) | (e' & Hin & Hlt & He & Hall)].
        -- exists e. split; [left; reflexivity|]. split; [exact Eo|]. split; [exact He|].
           constructor; [lia|exact Hall].
        -- exists e'. split; [right; exact Hin|]. split; [lia|]. split; [exact He|].
           constructor; [lia|exact Hall].
      * apply IH in H as (Hp & Hc & Hf & Hd). split; [exact Hp|]. split; [exact Hc|]. split; [exact Hf|].
        rewrite Z.gtb_ltb, Z.ltb_ge in Eo.
        destruct Hd as [(He & Hall) | (e' & Hin & Hlt & He & Hall)].
        -- left. split; [exact He|]. constructor; [lia|exact Hall].
        -- right. exists e'. split; [right; exact Hin|]. split; [exact Hlt|]. split; [exact He|].
           constructor; [lia|exact Hall].
    + unfold ret in H. injection H as <- _. do 3 (split; [reflexivity|]). left. split; [reflexivity | constructor].
Qed.

Lemma cpd_pass_first_size reading fe extr s w s' w' :
  cpd_offset_last s = 0 -> cpd_end_last s = 0 ->
  cpd_pass reading fe extr s w = Ret (s', true) w' ->
  exists E, p_end_last s' = p_end_last s + Z.max (partition_size_at reading (p_end_last s)) E /\
    ((E = 0 /\ Forall (fun e => entry_offset e <= 0) (examined_entries reading (p_end_last s))) \/
     (exists e, In e (examined_entries reading (p_end_last s)) /\ 0 < entry_offset e /\
        E = entry_end e /\
        Forall (fun e' => entry_offset e' <= entry_offset e) (examined_entries reading (p_end_last s)))) /\
    (extr = true -> exists tag id,
       fpt_part_all s' = fpt_part_all s ++ [(tag, p_end_last s, p_end_last s', id)]).
Proof.
  intros Ho Hd H. unfold cpd_pass, bind in H.
  destruct (get_struct _ _ (p_end_last s) _ w) as [hdr w1|c w1] eqn:E1; [|discriminate].
  apply get_struct_ret in E1 as [E1 ->].
  destruct (get_struct _ _ _ 0x284 w) as [mn2 w1|c w1] eqn:E2; [|discriminate].
  apply get_struct_ret in E2 as [E2 ->].
  destruct (ctag mn2 0x1C "$MN2"); [|discriminate].
  destruct (get_struct _ _ _ 0x58 w) as [e03 w1|c w1] eqn:E3; [|discriminate].
  apply get_struct_ret in E3 as [E3 ->].
  destruct (bytes_eqb _ _); [|discriminate].
  destruct (cpd_entry_scan _ _ _ _ _ w) as [s2 w2|c w2] eqn:E4; [|discriminate].
  unfold ret in H. injection H as <- _.
  apply cpd_entry_scan_spec in E4 as (Hp & Hc & Hf & Hs).
  cbn [p_end_last p_end_last_cont cpd_end_last cpd_offset_last] in *.
  subst hdr mn2 e03. rewrite Hc. rewrite Ho, Hd in Hs.
  change (u32 (slice reading (p_end_last s) (p_end_last s + 16)) 4) with (cpd_num_at reading (p_end_last s)) in *.
  change (take_while not_metadata (map (entry_bytes reading (p_end_last s))
            (odd_entries (cpd_num_at reading (p_end_last s)))))
    with (examined_entries reading (p_end_last s)) in Hs.
  set (q := p_end_last s + 16 + cpd_num_at reading (p_end_last s) * 24).
  change (u32 (slice reading (q + u32 (slice reading q (q + 644)) 4 * 4)
                              (q + u32 (slice reading q (q + 644)) 4 * 4 + 88)) 12)
    with (partition_size_at reading (p_end_last s)).
  exists (cpd_end_last s2). split; [reflexivity|]. split; [exact Hs|].
  intros ->. rewrite Hf. eexists; eexists; reflexivity.
Qed.

(** [C6] (as the code computes it) The first $CPD pass of the walk (no
    entry maxima carried in yet) that gets past its Extension 0x03 checks
    moves [p_end_last] by [max(PartitionSize, E)], where [E] is the
    [offset + size] of the entry with the greatest positive offset among
    the entries the code examines (indices 1, 3, 5, ... up to the first
    [.met]/[.man] name), or 0 when none has a positive offset; with
    [me11_mod_extr] it records the partition as spanning [p_end_last] to
    that new end. *)
Theorem cpd_pass_first_partition_size reading fe extr s w s' w' :
  cpd_offset_last s = 0 -> cpd_end_last s = 0 ->
  cpd_pass reading fe extr s w = Ret (s', true) w' ->
  exists E, p_end_last s' = p_end_last s + Z.max (partition_size_at reading (p_end_last s)) E /\
    ((E = 0 /\ Forall (fun e => entry_offset e <= 0) (examined_entries reading (p_end_last s))) \/
     (exists e, In e (examined_entries reading (p_end_last s)) /\ 0 < entry_offset e /\
        E = entry_end e /\
        Forall (fun e' => entry_offset e' <= entry_offset e) (examined_entries reading (p_end_last s)))) /\
    (extr = true -> exists tag id,
       fpt_part_all s' = fpt_part_all s ++ [(tag, p_end_last s, p_end_last s', id)]).
Proof. exact (cpd_pass_first_size reading fe extr s w s' w'). Qed.

Lemma cpd_pass_first_partition_size_witness :
  cpd_pass Images.dnxp_three_entries Images.dnxp_len true (mk_walk 0 0 0 0 0 []) (mk_world [] [] []) =
    Ret (mk_walk 0x200 0x100 0x200 0xA 0 [(tag_bytes "DNXP", 0, 0x200, 0)], true) (mk_world [] [] []) /\
  exists E, 0x200 = 0 + Z.max (partition_size_at Images.dnxp_three_entries 0) E /\
    ((E = 0 /\ Forall (fun e => entry_offset e <= 0) (examined_entries Images.dnxp_three_entries 0)) \/
     (exists e, In e (examined_entries Images.dnxp_three_entries 0) /\ 0 < entry_offset e /\
        E = entry_end e /\
        Forall (fun e' => entry_offset e' <= entry_offset e) (examined_entries Images.dnxp_three_entries 0))) /\
    (true = true -> exists tag id,
       [(tag_bytes "DNXP", 0, 0x200, 0)] = [] ++ [(tag, 0, 0x200, id)]).
Proof.
  assert (H : cpd_pass Images.dnxp_three_entries Images.dnxp_len true (mk_walk 0 0 0 0 0 []) (mk_world [] [] []) =
    Ret (mk_walk 0x200 0x100 0x200 0xA 0 [(tag_bytes "DNXP", 0, 0x200, 0)], true) (mk_world [] [] []))
    by (vm_compute; reflexivity).
  split; [exact H|].
  exact (cpd_pass_first_partition_size Images.dnxp_three_entries Images.dnxp_len true
           (mk_walk 0 0 0 0 0 []) (mk_world [] [] []) _ _ eq_refl eq_refl H).
Defined.

(** [C6] (counterexample) For [Images.dnxp_three_entries] the walk
    records the DNXP partition as [0, 0x200): [modA] ends at 0x200 and
    [modB], at index 2, is never examined; the larger of [PartitionSize]
    (0xA) and the greatest entry end over all non-metadata entries is
    0x1200. *)
Lemma dnxp_inferred_size_not_max_entry_end :
  (forall w, uncharted_walk Images.dnxp_three_entries Images.dnxp_len TXE 3 true 50 0 w =
     Ret (Some (mk_walk 0x200 0x100 0x200 0xA 0 [(tag_bytes "DNXP", 0, 0x200, 0)])) w) /\
  spec_partition_size Images.dnxp_three_entries 0 = 0x1200.
Proof. split; [intros w; vm_compute; reflexivity | vm_compute; reflexivity]. Qed.
End SizeProofs.

Section HexProofs.
Import Hash Rsa.

Lemma hex_pad_length w x : List.length (hex_pad w x) = w.
Proof.
  revert x; induction w as [|w IH]; intros x; simpl; [reflexivity|].
  rewrite length_app, IH; simpl; lia.
Qed.

Lemma hex_pad_digits w x : Forall (fun d => 0 <= d) (hex_pad w x).
Proof.
  revert x; induction w as [|w IH]; intros x; simpl; [constructor|].
  apply Forall_app; split; [apply IH|]. constructor; [apply Z.mod_pos_bound; lia|constructor].
Qed.

Lemma int_base16_app l1 l2 :
  int_base16 (l1 ++ l2) = fold_left (fun acc d => acc * 16 + d) l2 (int_base16 l1).
Proof. unfold int_base16. apply fold_left_app. Qed.

Lemma int_base16_hex_pad w x : int_base16 (hex_pad w x) = x mod 16 ^ Z.of_nat w.
Proof.
  revert x; induction w as [|w IH]; intros x.
  - simpl. rewrite Z.mod_1_r. reflexivity.
  - cbn [hex_pad]. rewrite int_base16_app, IH. cbn [fold_left].
    rewrite Nat2Z.inj_succ, Z.pow_succ_r by lia.
    assert (0 < 16 ^ Z.of_nat w) by (apply Z.pow_pos_nonneg; lia).
    rewrite (Z.rem_mul_r x 16 (16 ^ Z.of_nat w)) by lia. lia.
Qed.

Lemma hex_pad_mod w x : hex_pad w (x mod 16 ^ Z.of_nat w) = hex_pad w x.
Proof.
  revert x; induction w as [|w IH]; intros x; [reflexivity|].
  cbn [hex_pad]. rewrite Nat2Z.inj_succ, Z.pow_succ_r by lia.
  assert (Hc : 0 < 16 ^ Z.of_nat w) by (apply Z.pow_pos_nonneg; lia).
  rewrite (Z.rem_mul_r x 16 (16 ^ Z.of_nat w)) by lia.
  assert (Hr : 0 <= x mod 16 < 16) by (apply Z.mod_pos_bound; lia).
  replace (x mod 16 + 16 * ((x / 16) mod 16 ^ Z.of_nat w))
    with ((x / 16) mod 16 ^ Z.of_nat w * 16 + x mod 16) by ring.
  rewrite Z.div_add_l, (Z.div_small (x mod 16) 16), Z.add_0_r, IH by lia.
  rewrite Z.add_comm, Z.mod_add, Z.mod_mod by lia. reflexivity.
Qed.

Lemma hex_pad_add a b x : hex_pad (a + b) x = hex_pad a (x / 16 ^ Z.of_nat b) ++ hex_pad b x.
Proof.
  revert x; induction b as [|b IH]; intros x.
  - rewrite Nat.add_0_r, Z.pow_0_r, Z.div_1_r, app_nil_r. reflexivity.
  - rewrite Nat.add_succ_r. cbn [hex_pad]. rewrite IH, app_assoc.
    rewrite Z.div_div, Nat2Z.inj_succ, Z.pow_succ_r by (try apply Z.pow_pos_nonneg; lia).
    reflexivity.
Qed.

Lemma hex_pad_eq_iff w x d :
  0 <= d < 16 ^ Z.of_nat w -> (hex_pad w x = hex_pad w d <-> x mod 16 ^ Z.of_nat w = d).
Proof.
  intros Hd. split.
  - intros H. apply (f_equal int_base16) in H. rewrite !int_base16_hex_pad in H.
    rewrite (Z.mod_small d) in H by lia. exact H.
  - intros H. rewrite <- (hex_pad_mod w x), H. reflexivity.
Qed.

Lemma pow16 k : 0 <= k -> 16 ^ k = 2 ^ (4 * k).
Proof. intros Hk. rewrite Z.pow_mul_r by lia. reflexivity. Qed.

Lemma hex_len_spec x : 0 <= x ->
  x < 16 ^ Z.of_nat (hex_len x) /\
  (forall w, (2 <= w)%nat -> ((w <= hex_len x)%nat <-> 16 ^ (Z.of_nat w - 1) <= x)).
Proof.
  intros Hx. destruct (Z.eq_dec x 0) as [->|Hx0].
  - split; [reflexivity|]. intros w Hw. cbv [hex_len]. simpl Z.log2.
    assert (16 <= 16 ^ (Z.of_nat w - 1)).
    { replace (Z.of_nat w - 1) with (1 + (Z.of_nat w - 2)) by lia.
      rewrite Z.pow_add_r by lia. assert (0 < 16 ^ (Z.of_nat w - 2)) by (apply Z.pow_pos_nonneg; lia). lia. }
    simpl. lia.
  - assert (Hp : 0 < x) by lia.
    pose proof (Z.log2_nonneg x) as Hg0. pose proof (Z.log2_spec x Hp) as [_ Hg].
    set (g := Z.log2 x) in *.
    assert (Hq : g = 4 * (g / 4) + g mod 4) by (apply Z.div_mod; lia).
    pose proof (Z.mod_pos_bound g 4 ltac:(lia)).
    assert (HL : Z.of_nat (hex_len x) = g / 4 + 1).
    { unfold hex_len. fold g. rewrite Z2Nat.id by (pose proof (Z.div_pos g 4); lia). reflexivity. }
    split.
    + rewrite HL, pow16 by (pose proof (Z.div_pos g 4); lia).
      eapply Z.lt_le_trans; [exact Hg|]. apply Z.pow_le_mono_r; lia.
    + intros w Hw. rewrite pow16 by lia. rewrite Z.log2_le_pow2 by lia. fold g. lia.
Qed.

Lemma last_chars_hex_upper w x d :
  (2 <= w)%nat -> 0 <= x -> 0 <= d < 16 ^ Z.of_nat w ->
  (last_chars w (hex_upper x) = hex_pad w d <-> 16 ^ (Z.of_nat w - 1) <= x /\ x mod 16 ^ Z.of_nat w = d).
Proof.
  intros Hw Hx Hd. unfold hex_upper, last_chars. rewrite hex_pad_length.
  destruct (hex_len_spec x Hx) as [_ Hlen].
  destruct (le_lt_dec w (hex_len x)) as [Hle|Hlt].
  - replace (hex_len x) with ((hex_len x - w) + w)%nat at 2 by lia.
    rewrite hex_pad_add, skipn_app, (skipn_all2 (hex_pad _ _)) by (rewrite hex_pad_length; lia).
    rewrite hex_pad_length, Nat.sub_diag. cbn [app skipn].
    rewrite hex_pad_eq_iff by exact Hd. pose proof (proj1 (Hlen w Hw) Hle). tauto.
  - replace (hex_len x - w)%nat with 0%nat by lia. cbn [skipn]. split.
    + intros H. apply (f_equal (@List.length Z)) in H. rewrite !hex_pad_length in H. lia.
    + intros [H _]. apply (Hlen w Hw) in H. lia.
Qed.

Lemma int_base16_nonneg l acc :
  0 <= acc -> Forall (fun d => 0 <= d) l -> 0 <= fold_left (fun acc d => acc * 16 + d) l acc.
Proof.
  revert acc; induction l as [|d l IH]; intros acc Ha Hl; [exact Ha|].
  inversion Hl; subst. cbn [fold_left]. apply IH; [lia|assumption].
Qed.

Lemma words_int_nonneg ws : 0 <= words_int ws.
Proof.
  unfold words_int, int_base16. apply int_base16_nonneg; [lia|].
  apply Forall_concat, Forall_map, Forall_forall. intros. apply hex_pad_digits.
Qed.

Lemma pow_mod_pos_spec b p m : m <> 0 -> pow_mod_pos b p m = b ^ Z.pos p mod m.
Proof.
  intros Hm. induction p as [p IH|p IH|]; cbn [pow_mod_pos].
  - rewrite IH. replace (Z.pos p~1) with (Z.pos p + Z.pos p + 1) by lia.
    rewrite !Z.pow_add_r, Z.pow_1_r by lia.
    rewrite <- (Z.mul_mod_idemp_l (b ^ Z.pos p mod m * (b ^ Z.pos p mod m))), <- Z.mul_mod by exact Hm.
    apply Z.mul_mod_idemp_l, Hm.
  - rewrite IH. replace (Z.pos p~0) with (Z.pos p + Z.pos p) by lia.
    rewrite !Z.pow_add_r by lia.
    symmetry. apply Z.mul_mod, Hm.
  - rewrite Z.pow_1_r. reflexivity.
Qed.

Lemma pow_mod_spec b e m : m <> 0 -> pow_mod b e m = b ^ e mod m.
Proof.
  intros Hm. destruct e as [|p|p]; cbn [pow_mod].
  - reflexivity.
  - apply pow_mod_pos_spec, Hm.
  - rewrite Z.pow_neg_r by lia. rewrite Z.mod_0_l by exact Hm. reflexivity.
Qed.

Lemma mask32_range x : 0 <= mask32 x < 2 ^ 32.
Proof.
  unfold mask32. replace (2 ^ 32 - 1) with (Z.ones 32) by reflexivity.
  rewrite Z.land_ones by lia. apply Z.mod_pos_bound. lia.
Qed.

Lemma join_words_bound l acc :
  0 <= acc -> Forall (fun h => 0 <= h < 2 ^ 32) l ->
  0 <= fold_left (fun acc h => acc * 2 ^ 32 + h) l acc < (acc + 1) * 2 ^ (32 * Z.of_nat (List.length l)).
Proof.
  revert acc; induction l as [|h l IH]; intros acc Ha Hl.
  - cbn. lia.
  - inversion Hl as [|? ? Hh Hl']; subst. cbn [fold_left List.length].
    destruct (IH (acc * 2 ^ 32 + h)) as [H1 H2]; [lia|exact Hl'|].
    split; [exact H1|].
    rewrite Nat2Z.inj_succ, <- Z.add_1_r, Z.mul_add_distr_l, Z.mul_1_r, Z.pow_add_r by lia.
    assert (0 < 2 ^ (32 * Z.of_nat (List.length l))) by (apply Z.pow_pos_nonneg; lia).
    set (P := 2 ^ (32 * Z.of_nat (List.length l))) in *. nia.
Qed.

Lemma sha256_round_length st kw : List.length (sha256_round st kw) = List.length st.
Proof. destruct kw as [k w]. unfold sha256_round. do 9 (destruct st as [|? st]; [reflexivity|]). reflexivity. Qed.

Lemma sha1_round_length st tw : List.length (sha1_round st tw) = List.length st.
Proof.
  destruct tw as [t w]. unfold sha1_round.
  do 6 (destruct st as [|? st];
        [repeat match goal with |- context [if ?c then _ else _] => destruct c end; reflexivity|]).
  reflexivity.
Qed.

Lemma fold_length {A B} (f : list A -> B -> list A) (Hf : forall st x, List.length (f st x) = List.length st) :
  forall l st, List.length (fold_left f l st) = List.length st.
Proof. induction l as [|x l IH]; intros st; [reflexivity|]. cbn. rewrite IH. apply Hf. Qed.

Lemma map_combine_length (f : Z * Z -> Z) st st' :
  List.length st' = List.length st -> List.length (map f (combine st st')) = List.length st.
Proof. intros H. rewrite length_map, length_combine, H. apply Nat.min_id. Qed.

Lemma sha256_range m : 0 <= sha256 m < 16 ^ 64.
Proof.
  unfold sha256. set (st := fold_left sha256_block _ sha256_h0).
  assert (Hl : List.length st = 8%nat).
  { subst st. rewrite fold_length; [reflexivity|]. intros st0 blk. unfold sha256_block.
    apply map_combine_length. apply fold_length, sha256_round_length. }
  unfold join_words. destruct (join_words_bound (map mask32 st) 0) as [H1 H2]; [lia| |].
  - apply Forall_map, Forall_forall. intros. apply mask32_range.
  - rewrite length_map, Hl in H2. split; [exact H1|]. exact H2.
Qed.

Lemma sha1_range m : 0 <= sha1 m < 16 ^ 40.
Proof.
  unfold sha1. set (st := fold_left sha1_block _ sha1_h0).
  assert (Hl : List.length st = 5%nat).
  { subst st. rewrite fold_length; [reflexivity|]. intros st0 blk. unfold sha1_block.
    apply map_combine_length. apply fold_length, sha1_round_length. }
  unfold join_words. destruct (join_words_bound (map mask32 st) 0) as [H1 H2]; [lia| |].
  - apply Forall_map, Forall_forall. intros. apply mask32_range.
  - rewrite length_map, Hl in H2. split; [exact H1|]. exact H2.
Qed.

End HexProofs.

Section RsaProofs.
Import Hash Rsa.

(** What [rsa_sig_val] computes. With a zero modulus [pow] raises and
    [rsa_sig_val] returns its error list. Otherwise it decrypts
    [signature^exponent mod modulus], hashes the 0x80 bytes at
    [check_start] and the bytes from [check_start + HeaderLength*4] to
    [check_start + Size*4] with SHA-1 (ME below 6, SPS below 2) or
    SHA-256, and reports valid exactly when the decrypted value has at
    least as many hex digits as the digest (it is at least 16^39, resp.
    16^63) and its low 160 (resp. 256) bits equal the digest. *)
Theorem rsa_sig_val_verdict variant major reading m cs :
  let sha1_used := uses_sha1 variant major in
  let data := rsa_signed_data reading m cs in
  let w : nat := if sha1_used then 40%nat else 64%nat in
  let h : Z := if sha1_used then sha1 data else sha256 data in
  (rsa_pkey m = 0 -> rsa_sig_val variant major reading m cs = RsaError) /\
  (rsa_pkey m <> 0 ->
     rsa_decrypted m = rsa_sign m ^ rsa_pexp m mod rsa_pkey m /\
     exists v dec_hash,
       rsa_sig_val variant major reading m cs = RsaChecked v dec_hash (hexdigest w h) /\
       (v = true <-> 16 ^ (Z.of_nat w - 1) <= rsa_decrypted m /\
                     rsa_decrypted m mod 2 ^ (4 * Z.of_nat w) = h)).
Proof.
  intros sha1_used data w h. unfold rsa_sig_val. split; intros Hk.
  - rewrite Hk. reflexivity.
  - rewrite (proj2 (Z.eqb_neq _ _) Hk).
    assert (Hk0 : 0 <= rsa_pkey m) by apply words_int_nonneg.
    assert (Hd : rsa_decrypted m = rsa_sign m ^ rsa_pexp m mod rsa_pkey m) by apply pow_mod_spec, Hk.
    assert (Hx : 0 <= rsa_decrypted m) by (rewrite Hd; apply Z.mod_pos_bound; lia).
    split; [exact Hd|]. fold data. subst w h. unfold sha1_used.
    destruct (uses_sha1 variant major); eexists; eexists; (split; [reflexivity|]);
      unfold hex_eqb, hexdigest; destruct (list_eq_dec Z.eq_dec _ _) as [E|E].
    + apply last_chars_hex_upper in E; [|lia|exact Hx|exact (sha1_range _)].
      rewrite <- pow16 by lia. split; [intros _; exact E|reflexivity].
    + split; [discriminate|]. intros HH. exfalso. apply E.
      apply last_chars_hex_upper; [lia|exact Hx|exact (sha1_range _)|]. rewrite pow16 by lia. exact HH.
    + apply last_chars_hex_upper in E; [|lia|exact Hx|exact (sha256_range _)].
      rewrite <- pow16 by lia. split; [intros _; exact E|reflexivity].
    + split; [discriminate|]. intros HH. exfalso. apply E.
      apply last_chars_hex_upper; [lia|exact Hx|exact (sha256_range _)|]. rewrite pow16 by lia. exact HH.
Qed.

Lemma rsa_sig_val_verdict_witness :
  rsa_pkey (Images.rsa_self_signed 0) <> 0 /\
  exists dec_hash,
    rsa_sig_val Walk.ME 11 (Images.rsa_self_signed 0) (Images.rsa_self_signed 0) 0 =
    RsaChecked true dec_hash
      (hexdigest 64 (sha256 (rsa_signed_data (Images.rsa_self_signed 0) (Images.rsa_self_signed 0) 0))).
Proof.
  assert (Hk : rsa_pkey (Images.rsa_self_signed 0) <> 0) by (vm_compute; discriminate).
  split; [exact Hk|].
  destruct (proj2 (rsa_sig_val_verdict Walk.ME 11 (Images.rsa_self_signed 0) (Images.rsa_self_signed 0) 0) Hk)
    as (_ & v & dh & Heq & Hv).
  exists dh. rewrite Heq.
  assert (Ht : v = true) by (apply Hv; split; vm_compute; [discriminate|reflexivity]).
  rewrite Ht. reflexivity.
Defined.

(** [C2] (code bug) The low 256 bits of the decrypted value are compared
    through their hex text, and [dec_sign = '%X' % pow(...)] drops leading
    zeros, so a signature whose decrypted value has fewer than 64 hex
    digits is rejected even when its low 256 bits equal the digest. The
    self-signed manifest with salt 12 (SHA-256, ME 11): its decrypted
    value is the SHA-256 of the signed data, which starts with a 0 hex
    digit; [hex_upper] gives 63 digits, [dec_sign[-64:]] is that whole
    63-digit string, it differs from the 64-digit [hexdigest], and the
    signature is reported invalid. *)
Lemma rsa_low_bits_match_rejected :
  rsa_decrypted (Images.rsa_self_signed 12) mod 2 ^ 256 =
    sha256 (rsa_signed_data (Images.rsa_self_signed 12) (Images.rsa_self_signed 12) 0) /\
  List.length (hex_upper (rsa_decrypted (Images.rsa_self_signed 12))) = 63%nat /\
  rsa_sig_val Walk.ME 11 (Images.rsa_self_signed 12) (Images.rsa_self_signed 12) 0 =
    RsaChecked false (last_chars 64 (hex_upper (rsa_decrypted (Images.rsa_self_signed 12))))
      (hexdigest 64 (sha256 (rsa_signed_data (Images.rsa_self_signed 12) (Images.rsa_self_signed 12) 0))).
Proof. split; [|split]; vm_compute; reflexivity. Qed.

End RsaProofs.

Section LzmaProofs.
Import Hash LzmaHash.

Lemma existsb_hex_eqb h a b :
  existsb (hex_eqb h) [a; b] = true <-> h = a \/ h = b.
Proof.
  cbn [existsb]. unfold hex_eqb.
  destruct (list_eq_dec Z.eq_dec h a), (list_eq_dec Z.eq_dec h b); cbn; intuition congruence.
Qed.

(** [C10] (as the code computes it) For a module that is neither empty
    nor encrypted, [mod_anl] gives no hash verdict when the decompressor
    raises; otherwise the verdict is VALID exactly when the expected hash
    is the SHA-256 of the stored bytes (taken before the three header
    zeros are removed) or of the decompressed bytes padded with 0xFF up to
    the declared uncompressed size. *)
Theorem lzma_verdict_spec lzma_decompress reading md :
  mod_empty md <> 1 -> mod_encr md <> 1 ->
  let data := slice reading (mod_start md) (mod_start md + mod_size_comp md) in
  (lzma_decompress (strip_header data) = None -> lzma_verdict lzma_decompress reading md = None) /\
  (forall d, lzma_decompress (strip_header data) = Some d ->
     exists v, lzma_verdict lzma_decompress reading md = Some v /\
       (v = true <-> mod_hash md = sha_256 data \/
          mod_hash md = sha_256 (d ++ repeat 0xFF (Z.to_nat (mod_size_uncomp md - Z.of_nat (List.length d)))))).
Proof.
  intros He Hc data. unfold lzma_verdict.
  rewrite (proj2 (Z.eqb_neq _ _) He), (proj2 (Z.eqb_neq _ _) Hc). fold data.
  split.
  - intros Hd. rewrite Hd. reflexivity.
  - intros d Hd. rewrite Hd. eexists. split; [reflexivity|].
    rewrite <- existsb_hex_eqb.
    destruct (Z.of_nat (List.length d) =? mod_size_uncomp md) eqn:Es; cbn [negb]; [|reflexivity].
    apply Z.eqb_eq in Es. rewrite Es, Z.sub_diag. cbn [Z.to_nat repeat]. rewrite app_nil_r. reflexivity.
Qed.

Lemma lzma_verdict_spec_witness :
  (mod_empty Images.lzma_small_mod <> 1 /\ mod_encr Images.lzma_small_mod <> 1) /\
  lzma_verdict (fun _ => Some [1; 2; 3]) Images.lzma_small Images.lzma_small_mod = Some true.
Proof.
  assert (He : mod_empty Images.lzma_small_mod <> 1) by (vm_compute; discriminate).
  assert (Hc : mod_encr Images.lzma_small_mod <> 1) by (vm_compute; discriminate).
  split; [split; assumption|].
  destruct (proj2 (lzma_verdict_spec (fun _ => Some [1; 2; 3]) Images.lzma_small Images.lzma_small_mod He Hc)
              [1; 2; 3] eq_refl) as (v & Hv & Hiff).
  rewrite Hv. f_equal. apply Hiff. right. reflexivity.
Defined.

(** [C10] (counterexample) The stored bytes [0xFE; 0] hash to the
    expected value, so the claim calls the module VALID; but 0xFE is no
    valid LZMA properties byte, decompression raises whatever the
    decoders behind the format dispatch are, and no verdict is printed
    (only "Failed to decompress"). *)
Lemma lzma_undecodable_no_verdict :
  mod_hash Images.lzma_bad_mod = sha_256 (slice Images.lzma_bad_props 0 2) /\
  (forall xz lzip alone,
     lzma_verdict (lzma_auto xz lzip alone) Images.lzma_bad_props Images.lzma_bad_mod = None).
Proof. split; [vm_compute; reflexivity|]. intros xz lzip alone. vm_compute. reflexivity. Qed.

End LzmaProofs.

(** ** Properties of the helpers and drivers *)

Section Chk32Proofs.
Import Chk32.

Lemma wsum_app i a b : wsum i (a ++ b) = wsum i a + wsum (i + List.length a) b.
Proof.
  revert i; induction a as [|x a IH]; intros i; cbn [app wsum List.length].
  - rewrite Nat.add_0_r. ring.
  - rewrite IH. replace (S i + List.length a)%nat with (i + S (List.length a))%nat by lia. ring.
Qed.

Lemma wsum_add4 i b : wsum (i + 4) b = wsum i b.
Proof.
  revert i; induction b as [|x b IH]; intros i; cbn [wsum]; [reflexivity|].
  replace (S (i + 4)) with (S i + 4)%nat by lia. rewrite IH.
  replace (i + 4)%nat with (i + 1 * 4)%nat by lia. rewrite Nat.Div0.mod_add. reflexivity.
Qed.

Lemma wsum_mul4 n b : wsum (4 * n) b = wsum 0 b.
Proof.
  induction n as [|n IH]; [reflexivity|].
  replace (4 * S n)%nat with (4 * n + 4)%nat by lia. rewrite wsum_add4. exact IH.
Qed.

Lemma wsum_small b : (List.length b <= 4)%nat -> wsum 0 b = from_bytes_le b.
Proof.
  intros Hb. do 5 (destruct b as [|? b];
    [cbn [wsum from_bytes_le];
     repeat match goal with |- context [Z.of_nat (?k mod 4)] =>
       let v := eval vm_compute in (Z.of_nat (k mod 4)) in change (Z.of_nat (k mod 4)) with v end;
     ring|]).
  cbn in Hb. lia.
Qed.

Lemma wsum_repeat0 i k : wsum i (repeat 0 k) = 0.
Proof. revert i; induction k as [|k IH]; intros i; cbn; [reflexivity|]. rewrite IH. ring. Qed.

Lemma from_bytes_le_le_bytes w x : from_bytes_le (le_bytes w x) = x mod 256 ^ Z.of_nat w.
Proof.
  revert x; induction w as [|w IH]; intros x; cbn [le_bytes from_bytes_le].
  - rewrite Z.mod_1_r. reflexivity.
  - rewrite IH, Nat2Z.inj_succ, Z.pow_succ_r by lia.
    assert (0 < 256 ^ Z.of_nat w) by (apply Z.pow_pos_nonneg; lia).
    rewrite (Z.rem_mul_r x 256 (256 ^ Z.of_nat w)) by lia. ring.
Qed.

Lemma length_le_bytes w x : List.length (le_bytes w x) = w.
Proof. revert x; induction w; intros x; cbn; [reflexivity|]. rewrite IHw. reflexivity. Qed.

Lemma slice_nat (d : bytes) (a : nat) :
  slice d (Z.of_nat a) (Z.of_nat a + 4) = firstn 4 (skipn a d).
Proof.
  unfold slice. rewrite Nat2Z.id, Z2Nat.inj_add, Nat2Z.id by lia.
  f_equal. cbn. lia.
Qed.

Lemma firstn_add_split {A} (a b : nat) (l : list A) :
  firstn (a + b) l = firstn a l ++ firstn b (skipn a l).
Proof.
  revert l; induction a as [|a IH]; intros l; [reflexivity|].
  destruct l as [|x l]; cbn; [rewrite firstn_nil; reflexivity|]. rewrite IH. reflexivity.
Qed.

Lemma chunk_fold d n acc :
  fold_left (fun chk32 idx => chk32 + from_bytes_le (slice d (Z.of_nat idx) (Z.of_nat idx + 4)))
    (map (fun k => 4 * k)%nat (seq 0 n)) acc = acc + wsum 0 (firstn (4 * n) d).
Proof.
  induction n as [|n IH]; [cbn; lia|].
  rewrite seq_S, map_app, fold_left_app, IH. cbn [map fold_left].
  rewrite slice_nat. replace (4 * S n)%nat with (4 * n + 4)%nat by lia.
  rewrite firstn_add_split, wsum_app.
  destruct (le_lt_dec (4 * n) (List.length d)) as [Hle|Hlt].
  - rewrite length_firstn, Nat.min_l by exact Hle. rewrite !Nat.add_0_l, wsum_mul4, (wsum_small (firstn 4 _)).
    + lia.
    + rewrite length_firstn. lia.
  - rewrite !Nat.add_0_l, (skipn_all2 d) by lia. cbn. lia.
Qed.

Lemma mc_chk32_wsum d : mc_chk32 d = Z.land (- wsum 0 d) 0xFFFFFFFF.
Proof.
  unfold mc_chk32, py_range. rewrite chunk_fold, firstn_all2; [reflexivity|].
  pose proof (Nat.div_mod (List.length d + 4 - 1) 4 ltac:(lia)).
  pose proof (Nat.mod_upper_bound (List.length d + 4 - 1) 4 ltac:(lia)). lia.
Qed.

Lemma land_mask32 x : Z.land x 0xFFFFFFFF = x mod 2 ^ 32.
Proof. replace 0xFFFFFFFF with (Z.ones 32) by reflexivity. apply Z.land_ones. lia. Qed.

(** Appending zero bytes never changes the checksum: a trailing partial
    word is read as if it were padded with zeros. *)
(** [mc_chk32] is unchanged by any number of trailing zero bytes: a zero
    byte adds nothing to the little-endian word sum, also when it opens a
    new, shorter last word. *)
Theorem mc_chk32_zero_padding (data : bytes) (k : nat) :
  Chk32.mc_chk32 (data ++ repeat 0 k) = Chk32.mc_chk32 data.
Proof. rewrite !mc_chk32_wsum, wsum_app, wsum_repeat0, Z.add_0_r. reflexivity. Qed.

(** For data whose length is a multiple of 4, appending the checksum
    [mc_chk32(data)] as a 4-byte little-endian word makes [mc_chk32] of
    the result 0. *)
Theorem mc_chk32_append_checksum (data : bytes) :
  (List.length data mod 4 = 0)%nat ->
  Chk32.mc_chk32 (data ++ le_bytes 4 (Chk32.mc_chk32 data)) = 0.
Proof.
  intros H. rewrite (mc_chk32_wsum (data ++ _)), wsum_app.
  assert (E : (0 + List.length data = 4 * (List.length data / 4))%nat)
    by (pose proof (Nat.div_mod_eq (List.length data) 4); lia).
  rewrite E, wsum_mul4.
  rewrite (wsum_small (le_bytes 4 _)) by (rewrite length_le_bytes; lia).
  rewrite from_bytes_le_le_bytes, mc_chk32_wsum, !land_mask32.
  change (256 ^ Z.of_nat 4) with (2 ^ 32).
  rewrite Z.mod_mod by lia.
  apply Z.mod_opp_l_z; [lia|].
  rewrite Z.add_mod_idemp_r, Z.add_opp_diag_r by lia. reflexivity.
Qed.

Lemma mc_chk32_append_checksum_witness :
  (List.length [1;2;3;4;5;6;7;8] mod 4 = 0)%nat /\
  Chk32.mc_chk32 ([1;2;3;4;5;6;7;8] ++ le_bytes 4 (Chk32.mc_chk32 [1;2;3;4;5;6;7;8])) = 0.
Proof. split; [reflexivity|]. apply mc_chk32_append_checksum. reflexivity. Defined.

End Chk32Proofs.

Section TextProofs.
Import Hash Text.

Lemma byte_range_check b : forallb (fun x => (0 <=? x) && (x <? 256)) b = true -> byte_range b.
Proof.
  intros H. apply Forall_forall. intros x Hx. eapply forallb_forall in H; [|exact Hx].
  apply andb_true_iff in H as [H1 H2]. apply Z.leb_le in H1. apply Z.ltb_lt in H2. lia.
Qed.

Lemma byte_range_firstn n b : byte_range b -> byte_range (firstn n b).
Proof.
  unfold byte_range. revert b; induction n as [|n IH]; intros b Hb; [constructor|].
  destruct b as [|x b]; [constructor|]. inversion Hb; subst. constructor; auto.
Qed.

Lemma byte_range_skipn n b : byte_range b -> byte_range (skipn n b).
Proof.
  unfold byte_range. revert b; induction n as [|n IH]; intros b Hb; [exact Hb|].
  destruct b as [|x b]; [constructor|]. inversion Hb; subst. apply IH. assumption.
Qed.

Lemma byte_range_slice b x y : byte_range b -> byte_range (slice b x y).
Proof. intros H. apply byte_range_firstn, byte_range_skipn, H. Qed.

Lemma byte_range_app a b : byte_range a -> byte_range b -> byte_range (a ++ b).
Proof. intros Ha Hb. apply Forall_app. split; assumption. Qed.

Lemma byte_range_rev b : byte_range b -> byte_range (rev b).
Proof. unfold byte_range. intros H. apply Forall_rev, H. Qed.

Lemma hex_pad_2 x : hex_pad 2 x = [(x / 16) mod 16; x mod 16].
Proof. reflexivity. Qed.

Lemma hex_val_digit d : 0 <= d < 16 ->
  hex_val (hex_digit_lc d) = Some d /\ hex_val (char_upper (hex_digit_lc d)) = Some d.
Proof.
  intros Hd.
  assert (d = 0 \/ d = 1 \/ d = 2 \/ d = 3 \/ d = 4 \/ d = 5 \/ d = 6 \/ d = 7 \/
          d = 8 \/ d = 9 \/ d = 10 \/ d = 11 \/ d = 12 \/ d = 13 \/ d = 14 \/ d = 15) by lia.
  repeat match goal with H : _ \/ _ |- _ => destruct H end; subst; split; reflexivity.
Qed.

Lemma hex_vals_map (f : Z -> ascii) (Hf : forall d, 0 <= d < 16 -> hex_val (f d) = Some d) l :
  Forall (fun d => 0 <= d < 16) l -> hex_vals (map f l) = Some l.
Proof.
  induction l as [|d l IH]; intros Hl; [reflexivity|].
  inversion Hl; subst. cbn [map hex_vals]. rewrite Hf, IH by assumption. reflexivity.
Qed.

Lemma hex_digits_range a : Forall (fun d => 0 <= d < 16) (List.concat (map (hex_pad 2) a)).
Proof.
  apply Forall_concat, Forall_map, Forall_forall. intros x _. rewrite hex_pad_2.
  constructor; [|constructor; [|constructor]]; apply Z.mod_pos_bound; lia.
Qed.

Lemma b2a_hex_digits a : b2a_hex a = map hex_digit_lc (List.concat (map (hex_pad 2) a)).
Proof. unfold b2a_hex. rewrite concat_map, map_map. reflexivity. Qed.

Lemma hex_vals_b2a_hex a :
  hex_vals (b2a_hex a) = Some (List.concat (map (hex_pad 2) a)) /\
  hex_vals (upper (b2a_hex a)) = Some (List.concat (map (hex_pad 2) a)).
Proof.
  rewrite b2a_hex_digits. unfold upper. rewrite map_map. split; apply hex_vals_map;
    try apply hex_digits_range; intros d Hd; apply (hex_val_digit d Hd).
Qed.

Lemma hex_digits_inj a b : byte_range a -> byte_range b ->
  List.concat (map (hex_pad 2) a) = List.concat (map (hex_pad 2) b) -> a = b.
Proof.
  unfold byte_range. revert b; induction a as [|x a IH]; intros b Ha Hb H; destruct b as [|y b]; try reflexivity;
    try (cbn in H; discriminate).
  inversion Ha; inversion Hb; subst. cbn [map List.concat] in H. rewrite !hex_pad_2 in H.
  cbn [app] in H. injection H as Ea Eb Ec. f_equal; [|apply IH; assumption].
  pose proof (Z.div_mod x 16). pose proof (Z.div_mod y 16).
  rewrite (Z.mod_small (x / 16)), (Z.mod_small (y / 16)) in Ea by (split; [apply Z.div_pos|apply Z.div_lt_upper_bound]; lia).
  lia.
Qed.

Lemma b2a_hex_inj a b : byte_range a -> byte_range b -> b2a_hex a = b2a_hex b -> a = b.
Proof.
  intros Ha Hb H. apply hex_digits_inj; [assumption|assumption|].
  apply (f_equal hex_vals) in H. rewrite !(proj1 (hex_vals_b2a_hex _)) in H. congruence.
Qed.

Lemma upper_b2a_hex_inj a b : byte_range a -> byte_range b -> upper (b2a_hex a) = upper (b2a_hex b) -> a = b.
Proof.
  intros Ha Hb H. apply hex_digits_inj; [assumption|assumption|].
  apply (f_equal hex_vals) in H. rewrite !(proj2 (hex_vals_b2a_hex _)) in H. congruence.
Qed.

Lemma int_base16_hex_digits a acc : byte_range a ->
  fold_left (fun acc d => acc * 16 + d) (List.concat (map (hex_pad 2) a)) acc =
  fold_left (fun acc x => acc * 256 + x) a acc.
Proof.
  unfold byte_range. revert acc; induction a as [|x a IH]; intros acc Ha; [reflexivity|].
  inversion Ha; subst. cbn [map List.concat]. rewrite fold_left_app, hex_pad_2. cbn [fold_left].
  rewrite <- IH by assumption. f_equal.
  pose proof (Z.div_mod x 16).
  rewrite (Z.mod_small (x / 16)) by (split; [apply Z.div_pos|apply Z.div_lt_upper_bound]; lia). lia.
Qed.

Lemma from_bytes_be_rev a : from_bytes_be (rev a) = from_bytes_le a.
Proof.
  induction a as [|x a IH]; [reflexivity|].
  unfold from_bytes_be in *. cbn [rev from_bytes_le]. rewrite fold_left_app, IH. cbn [fold_left]. ring.
Qed.

Lemma b2a_hex_length l : List.length (b2a_hex l) = (2 * List.length l)%nat.
Proof.
  induction l as [|x l IH]; [reflexivity|]. unfold b2a_hex in *. cbn [map List.concat].
  rewrite length_app, IH, length_map, hex_pad_length. cbn [List.length]. lia.
Qed.

(** [int(b2a_hex(b[::-1]), 16)]: the little-endian value of [b], or
    [ValueError] on an empty [b]. *)
Lemma py_int16_b2a_hex_rev b : byte_range b ->
  py_int16 (b2a_hex (rev b)) = match b with [] => None | _ => Some (from_bytes_le b) end.
Proof.
  intros Hb. destruct b as [|x b']; [reflexivity|].
  set (b := x :: b'). unfold py_int16.
  assert (Hne : b2a_hex (rev b) <> []).
  { intros E. apply (f_equal (@List.length ascii)) in E. rewrite b2a_hex_length, length_rev in E.
    subst b. cbn in E. lia. }
  destruct (b2a_hex (rev b)) as [|c s] eqn:E; [congruence|]. rewrite <- E.
  rewrite (proj1 (hex_vals_b2a_hex _)). cbn [option_map]. unfold int_base16.
  rewrite int_base16_hex_digits by (apply byte_range_rev, Hb).
  fold (from_bytes_be (rev b)). rewrite from_bytes_be_rev. reflexivity.
Qed.

End TextProofs.

Section TextTheorems.
Import Hash Text.

Lemma rev_eq_iff {A} (l : list A) r : rev l = r <-> l = rev r.
Proof. split; intros H; subst; rewrite rev_involutive; reflexivity. Qed.

(** [intel_id()] returns ['OK'] exactly when the two bytes at
    [start_man_match - 0xB] are 0x86, 0x80 (the vendor id 0x8086 stored
    little-endian), and ['continue'] otherwise. *)
Theorem intel_id_ok_iff (reading : bytes) (start_man_match : Z) :
  byte_range reading -> 0xB <= start_man_match ->
  Text.intel_id reading start_man_match = "OK"%string <->
  slice reading (start_man_match - 0xB) (start_man_match - 0x9) = [0x86; 0x80].
Proof.
  intros Hr _. unfold Text.intel_id.
  set (sl := slice reading _ _).
  assert (Hs : byte_range (rev sl)) by (apply byte_range_rev, byte_range_slice, Hr).
  destruct (list_eq_dec ascii_dec _ _) as [E|E].
  - split; [intros _|reflexivity].
    change ["8"; "0"; "8"; "6"]%char with (b2a_hex [0x80; 0x86]) in E.
    apply b2a_hex_inj in E; [|exact Hs|apply byte_range_check; reflexivity].
    apply rev_eq_iff in E. exact E.
  - split; [discriminate|]. intros H. exfalso. apply E.
    rewrite H. reflexivity.
Qed.

Lemma intel_id_ok_iff_witness :
  byte_range ([0x86; 0x80] ++ repeat 0 9) /\ 0xB <= 0xB /\
  (Text.intel_id ([0x86; 0x80] ++ repeat 0 9) 0xB = "OK"%string <->
   slice ([0x86; 0x80] ++ repeat 0 9) (0xB - 0xB) (0xB - 0x9) = [0x86; 0x80]).
Proof.
  assert (Hr : byte_range ([0x86; 0x80] ++ repeat 0 9)) by (apply byte_range_check; reflexivity).
  split; [exact Hr|]. split; [lia|]. apply intel_id_ok_iff; [exact Hr|lia].
Defined.


Lemma slice_length_pos (r : bytes) a :
  0 <= a < Z.of_nat (List.length r) -> slice r a (a + 2) <> [].
Proof.
  intros Ha E. apply (f_equal (@List.length Z)) in E. unfold slice in E.
  rewrite length_firstn, length_skipn in E. cbn in E.
  rewrite Z2Nat.inj_add in E by lia. cbn in E. lia.
Qed.

Lemma slice_empty (r : bytes) a b :
  0 <= a -> Z.of_nat (List.length r) <= a -> slice r a b = [].
Proof.
  intros Ha Hl. unfold slice. rewrite skipn_all2 by lia. apply firstn_nil.
Qed.

Lemma fuj_header_iff h : byte_range h ->
  upper (b2a_hex h) = ["5"; "5"; "4"; "D"; "C"; "9"; "4"; "D"]%char <-> h = [0x55; 0x4D; 0xC9; 0x4D].
Proof.
  intros Hh. change ["5"; "5"; "4"; "D"; "C"; "9"; "4"; "D"]%char with (upper (b2a_hex [0x55; 0x4D; 0xC9; 0x4D])).
  split; [|intros ->; reflexivity].
  intros E. apply upper_b2a_hex_inj in E; [exact E|exact Hh|apply byte_range_check; reflexivity].
Qed.

(** [fuj_umem_ver(me_fd_start)] returns ["NaN"] unless the 4 bytes at
    [me_fd_start] are the UMEM header 55 4D C9 4D; with that header and
    0x12 bytes in the file it prints the little-endian 16-bit fields at
    0xB, 0xD, 0xF and 0x11 in decimal, joined by dots; when the file ends
    at or before [me_fd_start + 0xB], [int('', 16)] raises. *)
Theorem fuj_umem_ver_fields (reading : bytes) (me_fd_start : Z) :
  byte_range reading -> 0 <= me_fd_start ->
  let u16 a := from_bytes_le (slice reading (me_fd_start + a) (me_fd_start + a + 2)) in
  (slice reading me_fd_start (me_fd_start + 4) <> [0x55; 0x4D; 0xC9; 0x4D] ->
     Text.fuj_umem_ver reading me_fd_start = Some ["N"; "a"; "N"]%char) /\
  (slice reading me_fd_start (me_fd_start + 4) = [0x55; 0x4D; 0xC9; 0x4D] ->
     me_fd_start + 0x12 <= Z.of_nat (List.length reading) ->
     Text.fuj_umem_ver reading me_fd_start =
       Some (dec_str (u16 0xB) ++ ["."%char] ++ dec_str (u16 0xD) ++ ["."%char] ++
             dec_str (u16 0xF) ++ ["."%char] ++ dec_str (u16 0x11))) /\
  (slice reading me_fd_start (me_fd_start + 4) = [0x55; 0x4D; 0xC9; 0x4D] ->
     Z.of_nat (List.length reading) <= me_fd_start + 0xB ->
     Text.fuj_umem_ver reading me_fd_start = None).
Proof.
  intros Hr Hs u16. unfold Text.fuj_umem_ver.
  assert (Hfield : forall a, 0 <= a ->
    py_int16 (b2a_hex (rev (slice reading (me_fd_start + a) (me_fd_start + a + 2)))) =
    match slice reading (me_fd_start + a) (me_fd_start + a + 2) with
    | [] => None | _ => Some (u16 a) end).
  { intros a Ha. rewrite py_int16_b2a_hex_rev by (apply byte_range_slice, Hr).
    unfold u16. destruct (slice reading _ _); reflexivity. }
  assert (Hh : byte_range (slice reading me_fd_start (me_fd_start + 4))) by (apply byte_range_slice, Hr).
  split; [|split].
  - intros Hn. destruct (list_eq_dec ascii_dec _ _) as [E|E]; [|reflexivity].
    apply fuj_header_iff in E; [contradiction|exact Hh].
  - intros Hy Hl. destruct (list_eq_dec ascii_dec _ _) as [E|E].
    2:{ exfalso. apply E, fuj_header_iff; assumption. }
    rewrite !Hfield by lia.
    assert (Hne : forall a, 0 <= a <= 0x11 -> slice reading (me_fd_start + a) (me_fd_start + a + 2) <> [])
      by (intros a Ha; apply slice_length_pos; lia).
    destruct (slice reading (me_fd_start + 0xB) _) eqn:E1; [exfalso; apply (Hne 0xB); [lia|exact E1]|].
    destruct (slice reading (me_fd_start + 0xD) _) eqn:E2; [exfalso; apply (Hne 0xD); [lia|exact E2]|].
    destruct (slice reading (me_fd_start + 0xF) _) eqn:E3; [exfalso; apply (Hne 0xF); [lia|exact E3]|].
    destruct (slice reading (me_fd_start + 0x11) _) eqn:E4; [exfalso; apply (Hne 0x11); [lia|exact E4]|].
    reflexivity.
  - intros Hy Hl. destruct (list_eq_dec ascii_dec _ _) as [E|E].
    2:{ exfalso. apply E, fuj_header_iff; assumption. }
    rewrite (Hfield 0xB) by lia. rewrite slice_empty by lia. reflexivity.
Qed.


Lemma ff_b2a_hex n : repeat "F"%char (2 * n) = upper (b2a_hex (repeat 255 n)).
Proof.
  induction n as [|n IH]; [reflexivity|].
  replace (2 * S n)%nat with (S (S (2 * n))) by lia. cbn [repeat]. rewrite IH. reflexivity.
Qed.

Lemma all_ff_iff b n : byte_range b ->
  (if list_eq_dec ascii_dec (upper (b2a_hex b)) (repeat "F"%char (2 * n)) then Some 2 else Some 1) =
  (if list_eq_dec Z.eq_dec b (repeat 255 n) then Some 2 else Some 1).
Proof.
  intros Hb. rewrite ff_b2a_hex.
  destruct (list_eq_dec ascii_dec _ _) as [E|E]; destruct (list_eq_dec Z.eq_dec _ _) as [F|F];
    try reflexivity.
  - exfalso. apply F. apply upper_b2a_hex_inj in E; [exact E|exact Hb|].
    apply Forall_forall. intros x Hx. apply repeat_spec in Hx. lia.
  - exfalso. apply E. rewrite F. reflexivity.
Qed.

(** [spi_fd('unlocked', ..)] returns 2 exactly when the region access
    bytes it reads are all 0xFF (6 bytes for ME up to 10 and TXE up to 2,
    12 bytes for ME above 10, 6 bytes at 0x6D for TXE above 2) and 1
    otherwise; for SPS it falls off its end. *)
Theorem spi_fd_unlocked_all_ff (variant : Walk.fw_variant) (major : Z) (reading : bytes) (end_fd_match : Z) :
  byte_range reading ->
  let rd a b := slice reading (end_fd_match + a) (end_fd_match + b) in
  let ff fd n := if list_eq_dec Z.eq_dec fd (repeat 0xFF n) then Some 2 else Some 1 in
  Text.spi_fd_unlocked variant major reading end_fd_match =
  match variant with
  | Walk.ME =>
      if major <=? 10 then ff (rd 0x4E 0x50 ++ rd 0x52 0x54 ++ rd 0x56 0x58) 6%nat
      else ff (rd 0x6D 0x70 ++ rd 0x71 0x74 ++ rd 0x75 0x78 ++ rd 0x7D 0x80) 12%nat
  | Walk.TXE =>
      if major <=? 2 then ff (rd 0x4E 0x50 ++ rd 0x52 0x54 ++ rd 0x56 0x58) 6%nat
      else ff (rd 0x6D 0x70 ++ rd 0x71 0x74) 6%nat
  | Walk.SPS => None
  end.
Proof.
  intros Hr rd ff. unfold Text.spi_fd_unlocked.
  assert (Hs : forall a b, byte_range (rd a b)) by (intros; apply byte_range_slice, Hr).
  destruct variant.
  - destruct (major <=? 10) eqn:E.
    + apply (all_ff_iff _ 6); repeat apply byte_range_app; apply Hs.
    + cbn [negb]. replace (10 <? major) with true by (symmetry; apply Z.ltb_lt; apply Z.leb_gt in E; lia).
      apply (all_ff_iff _ 12); repeat apply byte_range_app; apply Hs.
  - destruct (major <=? 2) eqn:E.
    + apply (all_ff_iff _ 6); repeat apply byte_range_app; apply Hs.
    + replace (2 <? major) with true by (symmetry; apply Z.ltb_lt; apply Z.leb_gt in E; lia).
      apply (all_ff_iff _ 6); repeat apply byte_range_app; apply Hs.
  - reflexivity.
Qed.

Lemma fuj_umem_ver_fields_witness :
  let reading := [0x55; 0x4D; 0xC9; 0x4D] ++ repeat 0 7 ++ [0x0B; 0; 0x34; 0x12; 0xFF; 0xFF; 1; 0] in
  byte_range reading /\ Text.fuj_umem_ver reading 0 = Some (list_ascii_of_string "11.4660.65535.1").
Proof.
  intros reading.
  assert (Hr : byte_range reading) by (apply byte_range_check; reflexivity).
  split; [exact Hr|].
  destruct (fuj_umem_ver_fields reading 0 Hr ltac:(lia)) as (_ & H2 & _).
  rewrite H2; [vm_compute; reflexivity | vm_compute; reflexivity | vm_compute; discriminate].
Defined.

Lemma spi_fd_unlocked_all_ff_witness :
  let reading := repeat 0xFF 0x80 in
  byte_range reading /\ Text.spi_fd_unlocked Walk.ME 11 reading 0 = Some 2.
Proof.
  intros reading.
  assert (Hr : byte_range reading) by (apply byte_range_check; reflexivity).
  split; [exact Hr|]. rewrite (spi_fd_unlocked_all_ff Walk.ME 11 reading 0 Hr). vm_compute. reflexivity.
Defined.

End TextTheorems.

Section SplitProofs.
Import Hash Text.

Lemma pieces_nil : pieces2 [] = [].
Proof. reflexivity. Qed.

Lemma pieces_one c : pieces2 [c] = [[c]].
Proof. reflexivity. Qed.

Lemma pieces_cons2 a b r : pieces2 (a :: b :: r) = [a; b] :: pieces2 r.
Proof.
  unfold pieces2, Chk32.py_range. cbn [List.length].
  replace ((S (S (List.length r)) + 2 - 1) / 2)%nat with (S ((List.length r + 2 - 1) / 2)).
  2:{ replace (S (S (List.length r)) + 2 - 1)%nat with ((List.length r + 2 - 1) + 1 * 2)%nat by lia.
      rewrite Nat.div_add by lia. lia. }
  cbn [seq]. rewrite <- seq_shift, !map_map. cbn [map]. f_equal.
  rewrite map_map. apply map_ext. intros k. unfold str_slice.
  replace (2 * S k)%nat with (S (S (2 * k))) by lia.
  replace (S (S (2 * k)) + 2 - S (S (2 * k)))%nat with (2 * k + 2 - 2 * k)%nat by lia.
  reflexivity.
Qed.

Lemma split_ind (P : str -> Prop) :
  P [] -> (forall c, P [c]) -> (forall a b r, P r -> P (a :: b :: r)) -> forall s, P s.
Proof.
  intros H0 H1 H2 s. assert (Hn : forall n s, (List.length s <= n)%nat -> P s).
  { induction n as [|n IH]; intros s' Hs.
    - destruct s'; [exact H0|cbn in Hs; lia].
    - destruct s' as [|a [|b r]]; [exact H0|apply H1|]. apply H2. apply IH. cbn in Hs. lia. }
  apply (Hn (List.length s)). lia.
Qed.

Lemma filter_join ps :
  filter (fun c => negb (Ascii.eqb c " "%char)) (join [" "%char] ps) = filter (fun c => negb (Ascii.eqb c " "%char)) (List.concat ps).
Proof.
  induction ps as [|p ps IH]; [reflexivity|].
  destruct ps as [|p' ps].
  - cbn. rewrite app_nil_r. reflexivity.
  - change (join [" "%char] (p :: p' :: ps)) with (p ++ [" "%char] ++ join [" "%char] (p' :: ps)).
    rewrite !filter_app, IH. cbn [List.concat]. rewrite !filter_app. reflexivity.
Qed.

Lemma concat_pieces s : List.concat (pieces2 s) = s.
Proof.
  induction s as [|c|a b r IH] using split_ind.
  - reflexivity.
  - reflexivity.
  - rewrite pieces_cons2. cbn [List.concat]. rewrite IH. reflexivity.
Qed.

Lemma filter_not_space s : Forall (fun c => c <> " "%char) s -> filter (fun c => negb (Ascii.eqb c " "%char)) s = s.
Proof.
  induction s as [|c s IH]; intros H; [reflexivity|]. inversion H; subst.
  cbn. destruct (Ascii.eqb_spec c " "%char); [contradiction|]. cbn. f_equal. auto.
Qed.

(** [str_split_as_bytes] only inserts separators: removing the spaces
    from its result gives back any input without spaces. *)
Theorem str_split_as_bytes_unsplit (input_bytes : Text.str) :
  Forall (fun c => c <> " "%char) input_bytes ->
  filter (fun c => negb (Ascii.eqb c " "%char)) (Text.str_split_as_bytes input_bytes) = input_bytes.
Proof.
  intros H. unfold Text.str_split_as_bytes.
  rewrite filter_join, concat_pieces. apply filter_not_space, H.
Qed.

Lemma pieces_concat ps : Forall (fun p => List.length p = 2%nat) ps -> pieces2 (List.concat ps) = ps.
Proof.
  induction ps as [|p ps IH]; intros H; [reflexivity|]. inversion H; subst.
  destruct p as [|a [|b [|? ?]]]; cbn [List.length] in *; try lia.
  cbn [List.concat app]. rewrite pieces_cons2, IH by assumption. reflexivity.
Qed.

(** [krod_fit_sku(start_sku_match)] is the 0x100 bytes before the KROD
    match, each as two upper-case hex digits, separated by single spaces. *)
Theorem krod_fit_sku_groups (reading : bytes) (start_sku_match : Z) :
  0x100 <= start_sku_match ->
  Text.krod_fit_sku reading start_sku_match =
  join [" "%char] (map (fun x => upper (b2a_hex [x])) (slice reading (start_sku_match - 0x100) start_sku_match)).
Proof.
  intros _. unfold Text.krod_fit_sku, Text.str_split_as_bytes.
  f_equal. generalize (slice reading (start_sku_match - 0x100) start_sku_match) as b. intros b.
  assert (E : upper (b2a_hex b) = List.concat (map (fun x => upper (b2a_hex [x])) b)).
  { unfold upper, b2a_hex. rewrite concat_map, map_map. f_equal; apply map_ext; intros x; cbn; rewrite ?app_nil_r; reflexivity. }
  rewrite E. apply pieces_concat. apply Forall_map, Forall_forall. intros x _.
  unfold upper. rewrite length_map, b2a_hex_length. reflexivity.
Qed.

Lemma str_split_as_bytes_unsplit_witness :
  Forall (fun c => c <> " "%char) (list_ascii_of_string "8086A2") /\
  filter (fun c => negb (Ascii.eqb c " "%char)) (Text.str_split_as_bytes (list_ascii_of_string "8086A2")) =
    list_ascii_of_string "8086A2".
Proof.
  assert (H : Forall (fun c => c <> " "%char) (list_ascii_of_string "8086A2")).
  { apply Forall_forall. intros c Hc. cbn in Hc.
    repeat destruct Hc as [<-|Hc]; [discriminate..|contradiction]. }
  split; [exact H|]. apply str_split_as_bytes_unsplit, H.
Defined.

Lemma krod_fit_sku_groups_witness :
  0x100 <= 0x102 /\
  Text.krod_fit_sku ([0xAB; 0xCD] ++ repeat 0 0x100) 0x102 =
  join [" "%char] (map (fun x => upper (b2a_hex [x])) (slice ([0xAB; 0xCD] ++ repeat 0 0x100) (0x102 - 0x100) 0x102)).
Proof. split; [lia|]. apply krod_fit_sku_groups. lia. Defined.

End SplitProofs.

Section GuidProofs.
Import Text.

Lemma char_upper_dash c : Ascii.eqb (char_upper c) "-"%char = Ascii.eqb c "-"%char.
Proof. destruct c as [[] [] [] [] [] [] [] []]; reflexivity. Qed.

Lemma char_upper_idem c : char_upper (char_upper c) = char_upper c.
Proof. destruct c as [[] [] [] [] [] [] [] []]; reflexivity. Qed.

Lemma strip_upper l :
  filter (fun c => negb (Ascii.eqb c "-"%char)) (upper l) =
  upper (filter (fun c => negb (Ascii.eqb c "-"%char)) l).
Proof.
  induction l as [|c l IH]; [reflexivity|]. cbn [upper map filter]. unfold upper in IH.
  rewrite char_upper_dash. destruct (Ascii.eqb c "-"%char); cbn [negb]; [exact IH|].
  cbn [map]. f_equal. exact IH.
Qed.

Lemma strip_nodash l : ~ In "-"%char l -> filter (fun c => negb (Ascii.eqb c "-"%char)) l = l.
Proof.
  induction l as [|c l IH]; intros H; [reflexivity|]. cbn [filter].
  destruct (Ascii.eqb_spec c "-"%char) as [E|E]; [subst; exfalso; apply H; left; reflexivity|].
  cbn [negb]. f_equal. apply IH. intros Hin. apply H. right. exact Hin.
Qed.

Lemma upper_idem l : upper (upper l) = upper l.
Proof. unfold upper. rewrite map_map. apply map_ext, char_upper_idem. Qed.

Lemma upper_nodash l : ~ In "-"%char l -> ~ In "-"%char (upper l).
Proof.
  intros H Hin. apply in_map_iff in Hin as [c [Ec Hc]].
  assert (Ascii.eqb (char_upper c) "-"%char = true) by (rewrite Ec; reflexivity).
  rewrite char_upper_dash in H0. apply Ascii.eqb_eq in H0. subst. contradiction.
Qed.

Lemma in_app_or_r_skip {A} n (l : list A) x : In x (skipn n l) -> In x l.
Proof. intros H. rewrite <- (firstn_skipn n l). apply in_or_app. now right. Qed.

Lemma in_app_or_l_first {A} n (l : list A) x : In x (firstn n l) -> In x l.
Proof. intros H. rewrite <- (firstn_skipn n l). apply in_or_app. now left. Qed.

Lemma strip_cons_nd c l : c <> "-"%char ->
  filter (fun c => negb (Ascii.eqb c "-"%char)) (c :: l) = c :: filter (fun c => negb (Ascii.eqb c "-"%char)) l.
Proof. intros H. cbn [filter]. destruct (Ascii.eqb_spec c "-"%char); [contradiction|reflexivity]. Qed.

Lemma strip_dash l :
  filter (fun c => negb (Ascii.eqb c "-"%char)) ("-"%char :: l) = filter (fun c => negb (Ascii.eqb c "-"%char)) l.
Proof. reflexivity. Qed.

(** The dash-free content of [switch_guid guid] for a guid of at least
    16 characters: the first three fields byte-swapped. *)
Lemma strip_switch_guid c0 c1 c2 c3 c4 c5 c6 c7 c8 c9 c10 c11 c12 c13 c14 c15 r :
  ~ In "-"%char (c0 :: c1 :: c2 :: c3 :: c4 :: c5 :: c6 :: c7 :: c8 :: c9 :: c10 :: c11 :: c12 :: c13 :: c14 :: c15 :: r) ->
  filter (fun c => negb (Ascii.eqb c "-"%char))
    (switch_guid (c0 :: c1 :: c2 :: c3 :: c4 :: c5 :: c6 :: c7 :: c8 :: c9 :: c10 :: c11 :: c12 :: c13 :: c14 :: c15 :: r)) =
  upper (c6 :: c7 :: c4 :: c5 :: c2 :: c3 :: c0 :: c1 :: c10 :: c11 :: c8 :: c9 :: c14 :: c15 :: c12 :: c13 :: r).
Proof.
  intros H. unfold switch_guid. rewrite strip_upper. f_equal.
  unfold str_slice. cbn [skipn firstn Nat.sub app].
  assert (Hn : forall c, In c (c0 :: c1 :: c2 :: c3 :: c4 :: c5 :: c6 :: c7 :: c8 :: c9 :: c10 :: c11 :: c12 :: c13 :: c14 :: c15 :: r) -> c <> "-"%char)
    by (intros c Hc E; subst; contradiction).
  repeat first [rewrite strip_dash | rewrite strip_cons_nd by (apply Hn; cbn [In]; tauto)].
  change (filter ?f (?x ++ "-"%char :: ?y)) with (filter f (firstn 4 r ++ "-"%char :: skipn 4 r)).
  rewrite filter_app, strip_dash, (strip_nodash (firstn 4 r)), (strip_nodash (skipn 4 r)), firstn_skipn.
  - reflexivity.
  - intros Hin. apply (Hn "-"%char); [|reflexivity]. apply (in_app_or_r_skip 4 r) in Hin. cbn [In]. tauto.
  - intros Hin. apply (Hn "-"%char); [|reflexivity]. apply (in_app_or_l_first 4 r) in Hin. cbn [In]. tauto.
Qed.

(** [switch_guid] only reorders the bytes of the first three GUID fields,
    upper-cases and inserts dashes: applied twice (dashes removed in
    between) to a dash-free string of at least 16 characters it gives back
    the upper-cased input. *)
Theorem switch_guid_involutive (guid : Text.str) :
  (16 <= List.length guid)%nat -> ~ In "-"%char guid ->
  let strip s := filter (fun c => negb (Ascii.eqb c "-"%char)) s in
  strip (Text.switch_guid (strip (Text.switch_guid guid))) = Text.upper guid.
Proof.
  intros Hl Hd strip. subst strip.
  destruct guid as [|c0 guid]; [cbn in Hl; lia|].
  destruct guid as [|c1 guid]; [cbn in Hl; lia|].
  destruct guid as [|c2 guid]; [cbn in Hl; lia|].
  destruct guid as [|c3 guid]; [cbn in Hl; lia|].
  destruct guid as [|c4 guid]; [cbn in Hl; lia|].
  destruct guid as [|c5 guid]; [cbn in Hl; lia|].
  destruct guid as [|c6 guid]; [cbn in Hl; lia|].
  destruct guid as [|c7 guid]; [cbn in Hl; lia|].
  destruct guid as [|c8 guid]; [cbn in Hl; lia|].
  destruct guid as [|c9 guid]; [cbn in Hl; lia|].
  destruct guid as [|c10 guid]; [cbn in Hl; lia|].
  destruct guid as [|c11 guid]; [cbn in Hl; lia|].
  destruct guid as [|c12 guid]; [cbn in Hl; lia|].
  destruct guid as [|c13 guid]; [cbn in Hl; lia|].
  destruct guid as [|c14 guid]; [cbn in Hl; lia|].
  destruct guid as [|c15 guid]; [cbn in Hl; lia|].
  rewrite strip_switch_guid by exact Hd.
  cbn [upper map].
  rewrite strip_switch_guid.
  - cbn [upper map]. rewrite !char_upper_idem, upper_idem. reflexivity.
  - change (~ In "-"%char (upper (c6 :: c7 :: c4 :: c5 :: c2 :: c3 :: c0 :: c1 :: c10 :: c11 :: c8 :: c9 :: c14 :: c15 :: c12 :: c13 :: guid))).
    apply upper_nodash. intros Hin. apply Hd. cbn [In] in Hin.
    repeat destruct Hin as [Hin|Hin]; try rewrite <- Hin;
      repeat (first [left; reflexivity | right]); assumption.
Qed.

Lemma switch_guid_involutive_witness :
  let guid := list_ascii_of_string "0c111d82a3d0f74caef3e28088491704" in
  (16 <= List.length guid)%nat /\ ~ In "-"%char guid /\
  let strip s := filter (fun c => negb (Ascii.eqb c "-"%char)) s in
  strip (Text.switch_guid (strip (Text.switch_guid guid))) = Text.upper guid.
Proof.
  intros guid.
  assert (Hl : (16 <= List.length guid)%nat) by (vm_compute; lia).
  assert (Hd : ~ In "-"%char guid).
  { intros Hin. assert (E : existsb (fun c => Ascii.eqb c "-"%char) guid = true)
      by (apply existsb_exists; exists "-"%char; split; [exact Hin | reflexivity]).
    vm_compute in E. discriminate. }
  split; [exact Hl|]. split; [exact Hd|]. apply switch_guid_involutive; assumption.
Defined.

End GuidProofs.

Section GetStructProofs.
Import Exec.

Lemma slice_length s a b : 0 <= a <= b ->
  List.length (slice s a b) = Nat.min (Z.to_nat b - Z.to_nat a) (List.length s - Z.to_nat a).
Proof. intros H. unfold slice. rewrite length_firstn, length_skipn. reflexivity. Qed.

(** [get_struct(str_, off, struct)] returns the [struct_len] bytes at
    [off], leaving the state as it was, exactly when [off <= file_end] and
    [off + struct_len] is within [str_] (any offset passes the length test
    for an empty structure); otherwise it stores the out-of-bounds error
    and exits with code 1. *)
Theorem get_struct_bounds (str_ : bytes) (file_end off struct_len : Z) (w : world) :
  0 <= off -> 0 <= struct_len ->
  get_struct str_ file_end off struct_len w =
  if (off <=? file_end) && ((struct_len =? 0) || (off + struct_len <=? Z.of_nat (List.length str_)))
  then Ret (slice str_ off (off + struct_len)) w
  else Exit 1 (push_err (ErrOffsetOutOfBounds off) w).
Proof.
  intros Ho Hl. unfold get_struct.
  rewrite slice_length by lia.
  replace ((off >? file_end) || (Z.min (Z.of_nat (Nat.min (Z.to_nat (off + struct_len) - Z.to_nat off)
             (List.length str_ - Z.to_nat off))) struct_len <? struct_len))
    with (negb ((off <=? file_end) && ((struct_len =? 0) || (off + struct_len <=? Z.of_nat (List.length str_))))).
  - destruct (_ && _); reflexivity.
  - destruct (Z.leb_spec off file_end), (Z.gtb_spec off file_end); try lia;
    destruct (Z.eqb_spec struct_len 0), (Z.leb_spec (off + struct_len) (Z.of_nat (List.length str_)));
    destruct (Z.ltb_spec (Z.min (Z.of_nat (Nat.min (Z.to_nat (off + struct_len) - Z.to_nat off)
             (List.length str_ - Z.to_nat off))) struct_len) struct_len); cbn; try reflexivity; lia.
Qed.

Lemma get_struct_bounds_witness :
  0 <= 1 /\ 0 <= 2 /\
  get_struct [1; 2; 3] 3 1 2 (mk_world [] [] []) =
  if (1 <=? 3) && ((2 =? 0) || (1 + 2 <=? Z.of_nat (List.length [1; 2; 3])))
  then Ret (slice [1; 2; 3] 1 (1 + 2)) (mk_world [] [] [])
  else Exit 1 (push_err (ErrOffsetOutOfBounds 1) (mk_world [] [] [])).
Proof. split; [lia|]. split; [lia|]. apply get_struct_bounds; lia. Defined.

End GetStructProofs.

Section DecodeProofs.
Import OffsetAttrib.

Lemma decode_res x : cpd_mod_res (decode x) = (x / 2 ^ 26) mod 2 ^ 6.
Proof.
  unfold decode. cbn [cpd_mod_res]. rewrite format_032b_split.
  rewrite firstn_app, bin_digits_length. change (6 - 7)%nat with 0%nat. rewrite firstn_O, app_nil_r.
  change 7%nat with (S 6). rewrite bin_digits_S.
  rewrite firstn_app, bin_digits_length, Nat.sub_diag, firstn_O, app_nil_r.
  rewrite firstn_all2 by (rewrite bin_digits_length; lia).
  rewrite (int_base2_bin_digits 6). rewrite Z.div_div by lia. reflexivity.
Qed.

(** The three fields read from a $CPD entry's [OffsetAttrib] (offset,
    Huffman flag, reserved) are within 25, 1 and 6 bits and recombine to
    the 32-bit word: the split loses and overlaps no bit. *)
Theorem decode_fields_recombine (offset_attrib : Z) :
  let d := decode offset_attrib in
  0 <= cpd_mod_off d < 2 ^ 25 /\ 0 <= cpd_mod_huff d <= 1 /\ 0 <= cpd_mod_res d < 2 ^ 6 /\
  cpd_mod_off d + 2 ^ 25 * cpd_mod_huff d + 2 ^ 26 * cpd_mod_res d = offset_attrib mod 2 ^ 32.
Proof.
  intros d. subst d. rewrite decode_offset, decode_huff, decode_res.
  assert (Hb : Z.b2z (Z.testbit offset_attrib 25) = (offset_attrib / 2 ^ 25) mod 2).
  { rewrite Z.testbit_spec' by lia. rewrite Zmod_odd. destruct (Z.odd _); reflexivity. }
  rewrite Hb.
  split; [apply Z.mod_pos_bound; lia|].
  split; [pose proof (Z.mod_pos_bound (offset_attrib / 2 ^ 25) 2); lia|].
  split; [apply Z.mod_pos_bound; lia|].
  set (x := offset_attrib).
  assert (E26 : x / 2 ^ 26 = x / 2 ^ 25 / 2) by (rewrite Z.div_div by lia; reflexivity).
  rewrite E26.
  change (2 ^ 32) with (2 ^ 25 * (2 * 2 ^ 6)).
  rewrite Z.rem_mul_r by lia. rewrite Z.rem_mul_r by lia.
  change (2 ^ 26) with (2 ^ 25 * 2). ring.
Qed.

End DecodeProofs.

Section DriverProofs.
Import Exec Batch.

Lemma file_loop_mass_records (analyse : bytes -> M unit) :
  (forall r w, exists w', analyse r w = Ret tt w' /\ files_done w' = files_done w) ->
  forall source n w, exists w', file_loop analyse true source n w = Ret tt w' /\
    files_done w' = files_done w ++ map fst (filter (fun p => match snd p with Some _ => true | None => false end)
                                                  (combine (seq n (List.length source)) source)).
Proof.
  intros Ha source. induction source as [|[r|] source IH]; intros n w.
  - exists w. split; [reflexivity|]. cbn. now rewrite app_nil_r.
  - destruct (Ha r (mk_world [] (cpd_ext_hash w) (files_done w))) as [w1 [E1 F1]].
    destruct (IH (S n) (mk_world (err_stor w1) (cpd_ext_hash w1) (files_done w1 ++ [n]))) as [w2 [E2 F2]].
    exists w2. split.
    + cbn [file_loop]. unfold bind, modify. rewrite E1. exact E2.
    + rewrite F2. cbn [files_done List.length seq combine filter snd map fst] in *. rewrite F1.
      rewrite <- app_assoc. reflexivity.
  - destruct (IH (S n) w) as [w2 [E2 F2]]. exists w2. split; [exact E2|].
    rewrite F2. reflexivity.
Qed.

(** With [-mass] and per-file analyses that return, the driver analyses
    every input that is a file, in order, records each one's index and
    ends with exit code 0. *)
Theorem mea_main_mass_scan_records_all (analyse : bytes -> M unit) (source : list (option bytes)) (w : world) :
  (forall r w, exists w', analyse r w = Ret tt w' /\ files_done w' = files_done w) ->
  exists w', mea_main analyse true source w = Exit 0 w' /\
    files_done w' = files_done w ++ map fst (filter (fun p => match snd p with Some _ => true | None => false end)
                                                  (combine (seq 0 (List.length source)) source)).
Proof.
  intros Ha. destruct (file_loop_mass_records analyse Ha source 0 w) as [w' [E F]].
  exists w'. split; [|exact F]. unfold mea_main, bind, mea_exit. rewrite E. reflexivity.
Qed.

Lemma file_loop_missing_file (analyse : bytes -> M unit) :
  (forall r w, exists w', analyse r w = Ret tt w' /\ files_done w' = files_done w) ->
  forall pre rest n w, exists w', bind (file_loop analyse false (map Some pre ++ None :: rest) n) (fun _ => @mea_exit unit 0) w = Exit 0 w' /\
    files_done w' = files_done w ++ seq n (List.length pre).
Proof.
  intros Ha pre rest. induction pre as [|r pre IH]; intros n w.
  - exists w. split; [reflexivity|]. cbn. now rewrite app_nil_r.
  - destruct (Ha r (mk_world [] (cpd_ext_hash w) (files_done w))) as [w1 [E1 F1]].
    destruct (IH (S n) (mk_world (err_stor w1) (cpd_ext_hash w1) (files_done w1 ++ [n]))) as [w2 [E2 F2]].
    exists w2. split.
    + revert E2. cbn [map app file_loop]. unfold bind, modify. rewrite E1. exact (fun E => E).
    + rewrite F2. cbn [files_done List.length seq]. rewrite F1, <- app_assoc. reflexivity.
Qed.

(** Without [-mass], the first input path that is not a file ends the run
    with exit code 0 once the files before it are analysed; no input after
    it is analysed. *)
Theorem mea_main_missing_file_stops (analyse : bytes -> M unit) (pre : list bytes)
    (rest : list (option bytes)) (w : world) :
  (forall r w, exists w', analyse r w = Ret tt w' /\ files_done w' = files_done w) ->
  exists w', mea_main analyse false (map Some pre ++ None :: rest) w = Exit 0 w' /\
    files_done w' = files_done w ++ seq 0 (List.length pre).
Proof. intros Ha. apply (file_loop_missing_file analyse Ha pre rest 0 w). Qed.

Lemma mea_main_mass_scan_records_all_witness :
  exists w', mea_main (fun _ => ret tt) true [Some [1]; None; Some [2]] (mk_world [] [] []) = Exit 0 w' /\
    files_done w' = files_done (mk_world [] [] []) ++
      map fst (filter (fun p => match snd p with Some _ => true | None => false end)
                      (combine (seq 0 (List.length [Some [1]; None; Some [2]])) [Some [1]; None; Some [2]])).
Proof.
  apply mea_main_mass_scan_records_all.
  intros r w. exists w. split; reflexivity.
Defined.

Lemma mea_main_missing_file_stops_witness :
  exists w', mea_main (fun _ => ret tt) false (map Some [[1]; [2]] ++ None :: [Some [3]]) (mk_world [] [] []) = Exit 0 w' /\
    files_done w' = files_done (mk_world [] [] []) ++ seq 0 (List.length [[1]; [2]]).
Proof.
  apply mea_main_missing_file_stops.
  intros r w. exists w. split; reflexivity.
Defined.

End DriverProofs.

Section RsaKeyProofs.
Import Exec Hash Rsa Text.

Lemma int_base16_fold_acc l a :
  fold_left (fun acc d => acc * 16 + d) l a = a * 16 ^ Z.of_nat (List.length l) + int_base16 l.
Proof.
  unfold int_base16. revert a; induction l as [|d l IH]; intros a; cbn [fold_left List.length].
  - change (16 ^ Z.of_nat 0) with 1. ring.
  - rewrite IH, (IH (0 * 16 + d)). rewrite Nat2Z.inj_succ, Z.pow_succ_r by lia. ring.
Qed.

Lemma words_int_cons x ws : words_int (x :: ws) = words_int ws * 2 ^ 32 + x mod 2 ^ 32.
Proof.
  unfold words_int. cbn [rev]. rewrite map_app, concat_app. cbn [map List.concat]. rewrite app_nil_r.
  rewrite int_base16_app, int_base16_fold_acc, hex_pad_length, int_base16_hex_pad. reflexivity.
Qed.

Lemma u32_array_S m off n : 0 <= off ->
  u32_array m off (S n) = u32 m off :: u32_array m (off + 4) n.
Proof.
  intros H. unfold u32_array. cbn [seq map]. rewrite Z.add_0_r. f_equal.
  rewrite <- seq_shift, map_map. apply map_ext. intros i. f_equal. lia.
Qed.

Lemma from_bytes_le_app a b : from_bytes_le (a ++ b) = from_bytes_le a + 256 ^ Z.of_nat (List.length a) * from_bytes_le b.
Proof.
  induction a as [|x a IH]; cbn [app from_bytes_le List.length].
  - change (256 ^ Z.of_nat 0) with 1. ring.
  - rewrite IH, Nat2Z.inj_succ, Z.pow_succ_r by lia. ring.
Qed.

Lemma from_bytes_le_bound l : byte_range l -> 0 <= from_bytes_le l < 256 ^ Z.of_nat (List.length l).
Proof.
  induction 1 as [|x l Hx Hl IH]; cbn [from_bytes_le List.length].
  - cbn. lia.
  - rewrite Nat2Z.inj_succ, Z.pow_succ_r by lia. nia.
Qed.

Lemma slice_split4 m a k : 0 <= a -> 0 <= k ->
  slice m a (a + 4 + k) = slice m a (a + 4) ++ slice m (a + 4) (a + 4 + k).
Proof.
  intros Ha Hk. unfold slice.
  replace (Z.to_nat (a + 4 + k) - Z.to_nat a)%nat with (4 + Z.to_nat k)%nat by lia.
  replace (Z.to_nat (a + 4) - Z.to_nat a)%nat with 4%nat by lia.
  replace (Z.to_nat (a + 4 + k) - Z.to_nat (a + 4))%nat with (Z.to_nat k) by lia.
  rewrite firstn_add_split, skipn_skipn. do 2 f_equal. f_equal. lia.
Qed.

Lemma words_int_u32_array m a n : byte_range m -> 0 <= a ->
  words_int (u32_array m a n) = from_bytes_le (slice m a (a + 4 * Z.of_nat n)).
Proof.
  intros Hm. revert a; induction n as [|n IH]; intros a Ha.
  - unfold slice. rewrite Z.add_0_r, Nat.sub_diag. reflexivity.
  - rewrite u32_array_S, words_int_cons, IH by lia.
    replace (a + 4 * Z.of_nat (S n)) with (a + 4 + 4 * Z.of_nat n) by lia.
    rewrite slice_split4 by lia. rewrite from_bytes_le_app.
    pose proof (from_bytes_le_bound (slice m a (a + 4)) (byte_range_slice _ _ _ Hm)) as Hb.
    assert (Hl : (List.length (slice m a (a + 4)) <= 4)%nat).
    { unfold slice. rewrite length_firstn. lia. }
    unfold u32.
    destruct (Nat.eq_dec (List.length (slice m a (a + 4))) 4) as [E|E].
    + rewrite E in *. rewrite (Z.mod_small (from_bytes_le (slice m a (a + 4)))) by (cbn in Hb |- *; lia).
      change (256 ^ Z.of_nat 4) with (2 ^ 32). ring.
    + assert (Hs : slice m (a + 4) (a + 4 + 4 * Z.of_nat n) = []).
      { unfold slice in *. rewrite length_firstn, length_skipn in E.
        rewrite skipn_all2; [apply firstn_nil|]. lia. }
      rewrite Hs. cbn [from_bytes_le].
      assert (256 ^ Z.of_nat (List.length (slice m a (a + 4))) <= 2 ^ 32).
      { change (2 ^ 32) with (256 ^ 4). apply Z.pow_le_mono_r; lia. }
      rewrite Z.mod_small by lia. ring.
Qed.

(** The RSA modulus [rsa_sig_val] uses is the 256-byte little-endian
    integer at 0x80..0x180 of the manifest header, and the signature the
    one at 0x184..0x284: printing the reversed [uint32] words as 8 hex
    digits each reassembles the little-endian bytes. *)
Theorem rsa_key_little_endian (man_hdr_struct : bytes) :
  byte_range man_hdr_struct ->
  rsa_pkey man_hdr_struct = from_bytes_le (slice man_hdr_struct 0x80 0x180) /\
  rsa_sign man_hdr_struct = from_bytes_le (slice man_hdr_struct 0x184 0x284).
Proof.
  intros Hm. unfold rsa_pkey, rsa_sign.
  rewrite !words_int_u32_array by (auto; lia). split; reflexivity.
Qed.

Lemma rsa_key_little_endian_witness :
  byte_range (repeat 0 0x80 ++ le_bytes 256 (2 ^ 2048 - 3) ++ le_bytes 4 3 ++ le_bytes 256 12345) /\
  rsa_pkey (repeat 0 0x80 ++ le_bytes 256 (2 ^ 2048 - 3) ++ le_bytes 4 3 ++ le_bytes 256 12345) = 2 ^ 2048 - 3 /\
  rsa_sign (repeat 0 0x80 ++ le_bytes 256 (2 ^ 2048 - 3) ++ le_bytes 4 3 ++ le_bytes 256 12345) = 12345.
Proof.
  assert (Hr : byte_range (repeat 0 0x80 ++ le_bytes 256 (2 ^ 2048 - 3) ++ le_bytes 4 3 ++ le_bytes 256 12345))
    by (apply byte_range_check; vm_compute; reflexivity).
  destruct (rsa_key_little_endian _ Hr) as [E1 E2].
  split; [exact Hr|]. rewrite E1, E2. split; vm_compute; reflexivity.
Defined.

End RsaKeyProofs.

Section StripHeaderProofs.
Import LzmaHash.

(** For a module that starts with 36 00 40 00 00 and has at least 0xE
    bytes, inserting three zero bytes at 0xE and stripping the LZMA header
    as [mod_anl] does gives back the module. *)
Theorem strip_header_reinsert (mod_data : bytes) :
  prefix_of [0x36; 0; 0x40; 0; 0] mod_data = true -> (0xE <= List.length mod_data)%nat ->
  strip_header (firstn 0xE mod_data ++ [0; 0; 0] ++ skipn 0xE mod_data) = mod_data.
Proof.
  intros Hp Hl.
  do 14 (destruct mod_data as [|? mod_data]; [cbn in Hl; lia|]).
  unfold strip_header. cbn [firstn skipn app].
  cbn [prefix_of] in Hp |- *. rewrite Hp. reflexivity.
Qed.

Lemma strip_header_reinsert_witness :
  prefix_of [0x36; 0; 0x40; 0; 0] [0x36; 0; 0x40; 0; 0; 1; 2; 3; 4; 5; 6; 7; 8; 9; 10; 11; 12] = true /\
  (0xE <= List.length [0x36; 0; 0x40; 0; 0; 1; 2; 3; 4; 5; 6; 7; 8; 9; 10; 11; 12])%nat /\
  strip_header (firstn 0xE [0x36; 0; 0x40; 0; 0; 1; 2; 3; 4; 5; 6; 7; 8; 9; 10; 11; 12] ++ [0; 0; 0] ++ skipn 0xE [0x36; 0; 0x40; 0; 0; 1; 2; 3; 4; 5; 6; 7; 8; 9; 10; 11; 12]) = [0x36; 0; 0x40; 0; 0; 1; 2; 3; 4; 5; 6; 7; 8; 9; 10; 11; 12].
Proof.
  assert (Hp : prefix_of [0x36; 0; 0x40; 0; 0] [0x36; 0; 0x40; 0; 0; 1; 2; 3; 4; 5; 6; 7; 8; 9; 10; 11; 12] = true) by reflexivity.
  assert (Hl : (0xE <= List.length [0x36; 0; 0x40; 0; 0; 1; 2; 3; 4; 5; 6; 7; 8; 9; 10; 11; 12])%nat) by (cbn; lia).
  split; [exact Hp|]. split; [exact Hl|]. apply strip_header_reinsert; assumption.
Defined.

End StripHeaderProofs.

Section GenMsgProofs.
Import Msgs.
Local Open Scope string_scope.

Lemma starts_nl_nl m : starts_nl (nl ++ m) = true.
Proof. reflexivity. Qed.

Lemma no_nl_count_append_nl t m s : no_nl_count (append_to t (nl ++ m) s) = no_nl_count s.
Proof.
  unfold no_nl_count. destruct t; cbn [append_to err_stor warn_stor note_stor];
    rewrite ?filter_app, ?length_app; cbn [filter]; rewrite ?starts_nl_nl; cbn [negb];
    rewrite ?filter_app, ?length_app; cbn [List.length]; lia.
Qed.

Lemma no_nl_count_append_empty t m s :
  err_stor s = [] -> warn_stor s = [] -> note_stor s = [] -> (no_nl_count (append_to t m s) <= 1)%nat.
Proof.
  intros E W N. unfold no_nl_count. destruct t; cbn [append_to err_stor warn_stor note_stor];
    rewrite E, W, N; cbn [app filter]; destruct (negb (starts_nl m)); cbn; lia.
Qed.

Lemma no_nl_count_print m s : no_nl_count (print m s) = no_nl_count s.
Proof. reflexivity. Qed.

Lemma is_empty_nil {A} (l : list A) : is_empty l = true -> l = [].
Proof. destruct l; [reflexivity|discriminate]. Qed.

Lemma gen_msg_no_nl_count pm me t msg command s :
  (no_nl_count s <= 1)%nat -> (no_nl_count (gen_msg pm me t msg command s) <= 1)%nat.
Proof.
  intros H. unfold gen_msg. cbv zeta.
  match goal with |- context [if String.eqb command "del" then ?a else s] =>
    set (s1 := if String.eqb command "del" then a else s) end.
  assert (H1 : (no_nl_count s1 <= 1)%nat).
  { subst s1. destruct (String.eqb command "del"); [|exact H].
    unfold no_nl_count in *. cbn [err_stor warn_stor note_stor app] in *.
    rewrite filter_app, length_app in H. lia. }
  match goal with |- context [err_stor ?x] => set (s2 := x) end.
  assert (E2 : err_stor s2 = err_stor s1 /\ warn_stor s2 = warn_stor s1 /\ note_stor s2 = note_stor s1 /\
               no_nl_count s2 = no_nl_count s1).
  { subst s2. repeat match goal with |- context [if ?b then _ else _] => destruct b end; cbn; auto. }
  destruct E2 as (Ee & Ew & En & Ec).
  destruct (is_empty (err_stor s2)) eqn:Ge; destruct (is_empty (warn_stor s2)) eqn:Gw;
    destruct (is_empty (note_stor s2)) eqn:Gn; cbn [andb];
    try (rewrite no_nl_count_append_nl; lia).
  apply no_nl_count_append_empty; apply is_empty_nil; assumption.
Qed.

(** Starting from empty stores, any sequence of [gen_msg] calls leaves at
    most one message in [err_stor], [warn_stor] and [note_stor] together
    that does not start with a line break. *)
Theorem run_calls_one_unseparated (print_msg me11_mod_extr : bool) (calls : list call) :
  (no_nl_count (run_calls print_msg me11_mod_extr calls no_stores) <= 1)%nat.
Proof.
  unfold run_calls. assert (H0 : (no_nl_count no_stores <= 1)%nat) by (cbn; lia).
  revert H0. generalize no_stores. induction calls as [|c calls IH]; intros s Hs; cbn [fold_left].
  - exact Hs.
  - apply IH, gen_msg_no_nl_count, Hs.
Qed.

End GenMsgProofs.

Section WalkPartsProofs.
Import Exec Walk WalkParts.

Lemma parts_chain_app start l1 mid l2 stop :
  parts_chain start l1 mid = true -> parts_chain mid l2 stop = true -> parts_chain start (l1 ++ l2) stop = true.
Proof.
  revert start; induction l1 as [|[[[n a] b] i] l1 IH]; intros start H1 H2; cbn [parts_chain app] in *.
  - apply Z.eqb_eq in H1. subst. exact H2.
  - apply andb_true_iff in H1 as [Ha Hr]. rewrite Ha. cbn. apply IH; assumption.
Qed.

Lemma bind_ret_inv {A B} (m : M A) (k : A -> M B) w b w' :
  bind m k w = Ret b w' -> exists a w1, m w = Ret a w1 /\ k a w1 = Ret b w'.
Proof. unfold bind. destruct (m w) as [a w1|c w1]; [eauto|discriminate]. Qed.

Lemma entry_scan_world reading fe p idxs : forall s w s' w',
  cpd_entry_scan reading fe p idxs s w = Ret s' w' ->
  w' = w /\ p_end_last s' = p_end_last s /\ fpt_part_all s' = fpt_part_all s.
Proof.
  induction idxs as [|i idxs IH]; intros s w s' w' H; cbn [cpd_entry_scan] in H.
  - injection H as <- <-. auto.
  - apply bind_ret_inv in H as (e & w1 & E1 & H). apply get_struct_ret in E1 as [_ ->].
    destruct (_ && _).
    + destruct (_ >? _).
      * apply IH in H as (-> & Hp & Hf). auto.
      * apply IH in H as (-> & Hp & Hf). auto.
    + injection H as <- <-. auto.
Qed.

Lemma cpd_pass_parts reading fe extr s w s' b w' :
  cpd_pass reading fe extr s w = Ret (s', b) w' ->
  w' = w /\
  (if b then exists tag id, fpt_part_all s' =
       fpt_part_all s ++ (if extr then [(tag, p_end_last s, p_end_last s', id)] else [])
   else fpt_part_all s' = fpt_part_all s /\ p_end_last s' = p_end_last s).
Proof.
  intros H. unfold cpd_pass in H.
  apply bind_ret_inv in H as (hdr & w1 & E1 & H). apply get_struct_ret in E1 as [_ ->].
  apply bind_ret_inv in H as (mn2 & w1 & E2 & H). apply get_struct_ret in E2 as [_ ->].
  destruct (ctag mn2 0x1C "$MN2").
  2:{ injection H as <- <- <-. auto. }
  apply bind_ret_inv in H as (e03 & w1 & E3 & H). apply get_struct_ret in E3 as [_ ->].
  destruct (bytes_eqb _ _).
  2:{ injection H as <- <- <-. auto. }
  apply bind_ret_inv in H as (s2 & w2 & E4 & H). apply entry_scan_world in E4 as (-> & Hp & Hf).
  injection H as <- <- <-. split; [reflexivity|].
  cbv iota. cbn [fpt_part_all p_end_last] in *. rewrite Hf.
  exists (c_chars (slice hdr 12 16)), (fpt_in_id s2). destruct extr; [reflexivity|symmetry; apply app_nil_r].
Qed.

Lemma cpd_loop_parts reading fe extr fuel : forall s w s' w',
  cpd_loop reading fe extr fuel s w = Ret (Some s') w' ->
  w' = w /\ exists l, fpt_part_all s' = fpt_part_all s ++ l /\
    (if extr then parts_chain (p_end_last s) l (p_end_last s') = true else l = []).
Proof.
  induction fuel as [|fuel IH]; intros s w s' w' H; cbn [cpd_loop] in H.
  - discriminate.
  - destruct (tag_at reading (p_end_last s) "$CPD").
    + apply bind_ret_inv in H as ([s1 b] & w1 & E1 & H).
      apply cpd_pass_parts in E1 as [-> Hb]. cbn [fst snd] in H.
      destruct b.
      * destruct Hb as (tag & id & Hf).
        apply IH in H as [-> (l & Hl & Hc)]. split; [reflexivity|].
        rewrite Hl, Hf, <- app_assoc.
        exists ((if extr then [(tag, p_end_last s, p_end_last s1, id)] else []) ++ l).
        split; [reflexivity|]. destruct extr.
        -- apply (parts_chain_app _ _ (p_end_last s1)); [|exact Hc].
           cbn. rewrite !Z.eqb_refl. reflexivity.
        -- rewrite Hc. reflexivity.
      * destruct Hb as [Hf Hp]. injection H as <- <-. split; [reflexivity|].
        exists []. rewrite app_nil_r. split; [exact Hf|]. destruct extr; [|reflexivity].
        cbn. rewrite Hp. apply Z.eqb_refl.
    + injection H as <- <-. split; [reflexivity|]. exists []. rewrite app_nil_r. split; [reflexivity|].
      destruct extr; [apply Z.eqb_refl|reflexivity].
Qed.

Lemma mme_loop_world reading fe n : forall p ms msa w p' w',
  mme_loop reading fe n p ms msa w = Ret p' w' -> w' = w.
Proof.
  induction n as [|n IH]; intros p ms msa w p' w' H; cbn [mme_loop] in H.
  - injection H as _ <-. reflexivity.
  - apply bind_ret_inv in H as (e & w1 & E1 & H). apply get_struct_ret in E1 as [_ ->].
    destruct (ctag e 0 "$MME"); [eapply IH; exact H|]. injection H as _ <-. reflexivity.
Qed.

Lemma man_loop_world reading fe fuel : forall p w r w',
  man_loop reading fe fuel p w = Ret r w' -> w' = w.
Proof.
  induction fuel as [|fuel IH]; intros p w r w' H; cbn [man_loop] in H.
  - injection H as _ <-. reflexivity.
  - destruct (tag_at _ _ _); [|injection H as _ <-; reflexivity].
    apply bind_ret_inv in H as (m & w1 & E1 & H). apply get_struct_ret in E1 as [_ ->].
    destruct (_ =? _); [|injection H as _ <-; reflexivity].
    apply bind_ret_inv in H as (p1 & w1 & E2 & H). apply mme_loop_world in E2 as ->.
    eapply IH; exact H.
Qed.

Lemma mn2_loop_world reading fe variant fuel : forall p w r w',
  mn2_loop reading fe variant fuel p w = Ret r w' -> w' = w.
Proof.
  induction fuel as [|fuel IH]; intros p w r w' H; cbn [mn2_loop] in H.
  - injection H as _ <-. reflexivity.
  - destruct (tag_at _ _ _); [|injection H as _ <-; reflexivity].
    apply bind_ret_inv in H as (m & w1 & E1 & H). apply get_struct_ret in E1 as [_ ->].
    destruct (_ =? _); [|injection H as _ <-; reflexivity].
    apply bind_ret_inv in H as (m2 & w1 & E2 & H). apply get_struct_ret in E2 as [_ ->].
    destruct (ctag _ _ _); [eapply IH; exact H|injection H as _ <-; reflexivity].
Qed.

(** When the uncharted partition walk returns, it has not changed the
    program state; with [me11_mod_extr] the partitions it records in
    [fpt_part_all] are contiguous, each starting where the previous one
    ends and the last ending at the final [p_end_last]; without it, it
    records none. *)
Theorem uncharted_walk_parts_contiguous reading file_end variant major me11_mod_extr fuel p_end_last0 w s' w' :
  uncharted_walk reading file_end variant major me11_mod_extr fuel p_end_last0 w = Ret (Some s') w' ->
  w' = w /\
  if me11_mod_extr then exists p0, parts_chain p0 (fpt_part_all s') (p_end_last s') = true
  else fpt_part_all s' = [].
Proof.
  intros H. unfold uncharted_walk in H.
  apply bind_ret_inv in H as ([p1|] & w1 & E1 & H); [|discriminate].
  apply mn2_loop_world in E1 as ->.
  apply bind_ret_inv in H as ([p2|] & w1 & E2 & H); [|discriminate].
  apply man_loop_world in E2 as ->.
  apply cpd_loop_parts in H as [-> (l & Hl & Hc)]. split; [reflexivity|].
  cbn [fpt_part_all p_end_last app] in Hl. rewrite Hl.
  destruct me11_mod_extr; [exists p2; exact Hc | exact Hc].
Qed.

Lemma uncharted_walk_parts_contiguous_witness :
  exists s' w', uncharted_walk Images.dnxp_three_entries Images.dnxp_len TXE 3 true 4 0 (mk_world [] [] []) = Ret (Some s') w' /\
    fpt_part_all s' <> [] /\
    (w' = mk_world [] [] [] /\ exists p0, parts_chain p0 (fpt_part_all s') (p_end_last s') = true).
Proof.
  destruct (uncharted_walk Images.dnxp_three_entries Images.dnxp_len TXE 3 true 4 0 (mk_world [] [] []))
    as [[s'|] w'|c w'] eqn:E.
  - exists s', w'. split; [reflexivity|]. split.
    + vm_compute in E. injection E as <- <-. discriminate.
    + exact (uncharted_walk_parts_contiguous _ _ _ _ true _ _ _ _ _ E).
  - vm_compute in E. discriminate.
  - vm_compute in E. discriminate.
Defined.

End WalkPartsProofs.

Section HashHexProofs.
Import Hash LzmaHash.

Lemma hex_pad_range w x : Forall (fun d => 0 <= d < 16) (hex_pad w x).
Proof.
  revert x; induction w as [|w IH]; intros x; cbn [hex_pad]; [constructor|].
  apply Forall_app; split; [apply IH|]. constructor; [apply Z.mod_pos_bound; lia|constructor].
Qed.

(** [sha_256(data)] is 64 hex digits and [sha_1(data)] 40, and they read
    back with [int(.., 16)] as the digests: no digest is truncated. *)
Theorem hexdigest_sha_roundtrip (data : bytes) :
  List.length (sha_256 data) = 64%nat /\ Forall (fun d => 0 <= d < 16) (sha_256 data) /\
  int_base16 (sha_256 data) = sha256 data /\
  List.length (hexdigest 40 (sha1 data)) = 40%nat /\ Forall (fun d => 0 <= d < 16) (hexdigest 40 (sha1 data)) /\
  int_base16 (hexdigest 40 (sha1 data)) = sha1 data.
Proof.
  unfold sha_256, hexdigest. rewrite !hex_pad_length, !int_base16_hex_pad.
  pose proof (sha256_range data). pose proof (sha1_range data).
  rewrite !Z.mod_small by (cbn [Z.of_nat Pos.of_succ_nat Pos.succ]; lia).
  repeat split; apply hex_pad_range.
Qed.

End HashHexProofs.
